(** * ChatTube: a model of the RAG service and of its HTTP handlers

    The development follows the layout of the repository:
    - [Py]: the few Python primitives the code relies on (exceptions,
      [str.join], [str.strip], literal [re.split]);
    - [text_splitter]: the text splitter the service configures in
      [RAGService.__init__] (rag_service.py:24-27);
    - [rag_service]: app/rag_service.py, method by method, in a monad of
      state, exceptions and a trace of requests and assignments;
    - [models], [main]: app/models.py and the handlers of app/main.py that
      call into the service;
    - [session], [scenario], [spec]: sequences of calls, concrete worlds
      to run the model in, and the vocabulary of the specification;
    - the properties, component by component.

    A Python [str] is modelled as a [string]: a sequence of characters, each
    a code point below 256.  Logging calls have no effect on the state and
    are left out. *)

From Stdlib Require Import String Ascii List ZArith QArith Lia Bool Arith.
From Stdlib Require Import DecimalString Sorted Permutation.
Import ListNotations.
Local Open Scope string_scope.
Local Open Scope list_scope.

(* ===================================================================== *)
(** * Python primitives *)
(* ===================================================================== *)

Module Py.

(** Exceptions, by class.  [Exception] is the plain base class the service
    raises itself; [TranscriptsDisabled] comes from youtube_transcript_api;
    [IndexError], [TypeError], [KeyError], [ValueError] and
    [AttributeError] are raised by the interpreter and the libraries;
    [HTTPException] is FastAPI's, with its status code and detail. *)
Inductive exn : Type :=
| Exception (msg : string)
| TranscriptsDisabled (msg : string)
| IndexError (msg : string)
| TypeError (msg : string)
| KeyError (msg : string)
| ValueError (msg : string)
| AttributeError (msg : string)
| HTTPException (status_code : Z) (detail : string).

(** [str(n)] for an integer: its decimal digits. *)
Definition str_int (n : Z) : string := NilZero.string_of_int (Z.to_int n).

(** [str(e)]: the message; for an [HTTPException] the status code, a
    colon and the detail. *)
Definition str (e : exn) : string :=
  match e with
  | Exception m | TranscriptsDisabled m | IndexError m | TypeError m
  | KeyError m | ValueError m | AttributeError m => m
  | HTTPException c d => str_int c ++ ": " ++ d
  end.

(** The outcome of a call: a value or a raised exception. *)
Inductive result (A : Type) : Type :=
| Ok (a : A)
| Raise (e : exn).
Arguments Ok {A} a.
Arguments Raise {A} e.

Definition rbind {A B} (r : result A) (k : A -> result B) : result B :=
  match r with
  | Ok a => k a
  | Raise e => Raise e
  end.

Definition is_ok {A} (r : result A) : bool :=
  match r with Ok _ => true | Raise _ => false end.

(** [len(s)] as a Python integer. *)
Definition len (s : string) : Z := Z.of_nat (String.length s).

(** [sep.join(parts)]. *)
Fixpoint join (sep : string) (parts : list string) : string :=
  match parts with
  | [] => ""
  | [p] => p
  | p :: rest => p ++ sep ++ join sep rest
  end.

(** The line feed character, for the literals that contain it. *)
Definition LF : string := String (ascii_of_nat 10) EmptyString.

(** [c.isspace()] on the code points below 256: TAB..CR, FS..US, SPACE,
    NEL (0x85) and NBSP (0xA0). *)
Definition isspace (c : ascii) : bool :=
  let n := nat_of_ascii c in
  (((9 <=? n) && (n <=? 13)) || ((28 <=? n) && (n <=? 31))
   || (n =? 32) || (n =? 133) || (n =? 160))%nat.

(** [s.lstrip()], [s.rstrip()] and [s.strip()]. *)
Fixpoint lstrip (s : string) : string :=
  match s with
  | EmptyString => EmptyString
  | String c t => if isspace c then lstrip t else s
  end.

Fixpoint rstrip (s : string) : string :=
  match s with
  | EmptyString => EmptyString
  | String c t =>
      match rstrip t with
      | EmptyString => if isspace c then EmptyString else String c EmptyString
      | r => String c r
      end
  end.

Definition strip (s : string) : string := lstrip (rstrip s).

(** [re.search(re.escape(sub), text)] as a truth value: does the literal
    [sub] occur in [text]? *)
Fixpoint re_search (sub text : string) : bool :=
  String.prefix sub text
  || match text with
     | EmptyString => false
     | String _ t => re_search sub t
     end.

(** [re.split(re.escape(sep), text)] for a non-empty literal [sep]: the
    pieces between the leftmost non-overlapping occurrences of [sep].
    [skip] counts the characters of a matched separator still to drop. *)
Fixpoint re_split_from (sep text : string) (skip : nat) : list string :=
  match text with
  | EmptyString => [EmptyString]
  | String c t =>
      match skip with
      | S k => re_split_from sep t k
      | O =>
          if String.prefix sep text
          then EmptyString :: re_split_from sep t (String.length sep - 1)
          else match re_split_from sep t 0 with
               | p :: ps => String c p :: ps
               | [] => [String c EmptyString]
               end
      end
  end.

Definition re_split (sep text : string) : list string :=
  re_split_from sep text 0.

(** [re.split("(" + re.escape(sep) + ")", text)]: the same pieces with the
    captured separator between each two of them. *)
Fixpoint interleave (sep : string) (pieces : list string) : list string :=
  match pieces with
  | [] => []
  | [p] => [p]
  | p :: rest => p :: sep :: interleave sep rest
  end.

Definition re_split_capture (sep text : string) : list string :=
  interleave sep (re_split sep text).

(** [text[n:]]. *)
Fixpoint drop (n : nat) (text : string) : string :=
  match n, text with
  | O, _ => text
  | S k, String _ t => drop k t
  | S _, EmptyString => EmptyString
  end.

(** ["".join(parts)], as a fold. *)
Definition concat (parts : list string) : string :=
  fold_right append EmptyString parts.

(** [list(text)]: one string per character. *)
Fixpoint list_chars (text : string) : list string :=
  match text with
  | EmptyString => []
  | String c t => String c EmptyString :: list_chars t
  end.

End Py.

Import Py.

Declare Scope result_scope.
Notation "'let*' x ':=' r 'in' k" := (rbind r (fun x => k))
  (at level 10, x name, r at level 100, k at level 200) : result_scope.
Notation "'let*' ' p ':=' r 'in' k" := (rbind r (fun x => let 'p := x in k))
  (at level 10, p pattern, r at level 100, k at level 200) : result_scope.
Local Open Scope result_scope.
Local Open Scope Z_scope.

(* ===================================================================== *)
(** * The text splitter *)
(* ===================================================================== *)

(** [langchain.text_splitter.RecursiveCharacterTextSplitter], the class
    [RAGService.__init__] instantiates with [chunk_size=1000] and
    [chunk_overlap=200].  The class is library code that the application
    imports; the definitions below follow its methods one by one, for
    literal separators ([is_separator_regex=False]), [length_function=len]
    and [add_start_index=False], which are the defaults the application
    leaves in place. *)
Module text_splitter.

(** [langchain_core.documents.Document]: the text of a chunk and its
    metadata (the splitter attaches an empty dict). *)
Record Document : Type := {
  page_content : string;
  metadata : list (string * string)
}.

Record RecursiveCharacterTextSplitter : Type := {
  _chunk_size : Z;
  _chunk_overlap : Z;
  _keep_separator : bool;
  _strip_whitespace : bool;
  _separators : list string
}.

(** [[l[i] + l[i + 1] for i in range(0, len(l), 2)]], used on
    [_splits[1:]], whose length is even. *)
Fixpoint pair_up (l : list string) : list string :=
  match l with
  | a :: b :: rest => (a ++ b)%string :: pair_up rest
  | _ => []
  end.

(** [_split_text_with_regex(text, separator, keep_separator)]. *)
Definition _split_text_with_regex
    (text separator : string) (keep_separator : bool) : list string :=
  let splits :=
    if String.eqb separator "" then list_chars text
    else if keep_separator then
      let _splits := re_split_capture separator text in
      hd "" _splits :: pair_up (tl _splits)
    else re_split separator text in
  filter (fun s => negb (String.eqb s "")) splits.

Section Methods.

Variable self : RecursiveCharacterTextSplitter.

(** [self._join_docs(docs, separator)]; [None] when nothing is left. *)
Definition _join_docs (docs : list string) (separator : string) : option string :=
  let text := join separator docs in
  let text := if _strip_whitespace self then strip text else text in
  if String.eqb text "" then None else Some text.

Definition append_doc (docs : list string) (doc : option string) : list string :=
  match doc with
  | Some d => docs ++ [d]
  | None => docs
  end.

(** The guard of the [while] loop of [_merge_splits]. *)
Definition keep_popping
    (separator_len _len : Z) (current_doc : list string) (total : Z) : bool :=
  (total >? _chunk_overlap self)
  || ((total + _len
       + (if (0 <? length current_doc)%nat then separator_len else 0)
       >? _chunk_size self)
      && (total >? 0)).

(** The [while] loop of [_merge_splits]: drop leading pieces of
    [current_doc] while the guard holds.  [current_doc[0]] on an empty
    list raises [IndexError]. *)
Fixpoint pop_front
    (separator_len _len : Z) (current_doc : list string) (total : Z)
    {struct current_doc} : result (list string * Z) :=
  match current_doc with
  | [] =>
      if keep_popping separator_len _len [] total
      then Raise (IndexError "list index out of range")
      else Ok ([], total)
  | d0 :: rest =>
      if keep_popping separator_len _len current_doc total
      then pop_front separator_len _len rest
             (total - (len d0
                       + (if (1 <? length current_doc)%nat
                          then separator_len else 0)))
      else Ok (current_doc, total)
  end.

(** The [for] loop of [_merge_splits] and the final flush. *)
Fixpoint merge_loop
    (separator : string) (splits docs current_doc : list string) (total : Z)
    {struct splits} : result (list string) :=
  let separator_len := len separator in
  match splits with
  | [] => Ok (append_doc docs (_join_docs current_doc separator))
  | d :: more =>
      let _len := len d in
      let* st :=
        if (total + _len
            + (if (0 <? length current_doc)%nat then separator_len else 0)
            >? _chunk_size self)
           && (0 <? length current_doc)%nat
        then
          let docs' := append_doc docs (_join_docs current_doc separator) in
          let* popped := pop_front separator_len _len current_doc total in
          Ok (docs', fst popped, snd popped)
        else Ok (docs, current_doc, total) in
      let '(docs1, current_doc1, total1) := st in
      let current_doc2 := current_doc1 ++ [d] in
      let total2 :=
        total1 + _len
        + (if (1 <? length current_doc2)%nat then separator_len else 0) in
      merge_loop separator more docs1 current_doc2 total2
  end.

(** [self._merge_splits(splits, separator)]. *)
Definition _merge_splits (splits : list string) (separator : string)
  : result (list string) :=
  merge_loop separator splits [] [] 0.

(** The [for s in splits] loop of [_split_text].  [recurse] is
    [self._split_text(., new_separators)], or [None] when
    [new_separators] is empty. *)
Fixpoint split_loop
    (_separator : string) (recurse : option (string -> result (list string)))
    (splits final_chunks _good_splits : list string)
    {struct splits} : result (list string) :=
  match splits with
  | [] =>
      match _good_splits with
      | [] => Ok final_chunks
      | _ =>
          let* merged_text := _merge_splits _good_splits _separator in
          Ok (final_chunks ++ merged_text)
      end
  | s :: more =>
      if len s <? _chunk_size self
      then split_loop _separator recurse more final_chunks (_good_splits ++ [s])
      else
        let* final1 :=
          match _good_splits with
          | [] => Ok final_chunks
          | _ =>
              let* merged_text := _merge_splits _good_splits _separator in
              Ok (final_chunks ++ merged_text)
          end in
        let* final2 :=
          match recurse with
          | None => Ok (final1 ++ [s])
          | Some f => let* other_info := f s in Ok (final1 ++ other_info)
          end in
        split_loop _separator recurse more final2 []
  end.

(** The part of [_split_text] after the separator has been chosen. *)
Definition split_with
    (separator : string) (recurse : option (string -> result (list string)))
    (text : string) : result (list string) :=
  let splits := _split_text_with_regex text separator (_keep_separator self) in
  let _separator := if _keep_separator self then "" else separator in
  split_loop _separator recurse splits [] [].

(** [self._split_text(text, separators)].  The head of the method scans
    [separators] for the first one that is empty or occurs in [text]; the
    separators after it become [new_separators].  When the scan ends
    without a hit the separator is [separators[-1]], the one just scanned,
    and [new_separators] is empty. *)
Fixpoint _split_text (text : string) (separators : list string)
    {struct separators} : result (list string) :=
  match separators with
  | [] => Raise (IndexError "list index out of range")
  | _s :: rest =>
      if String.eqb _s "" then split_with _s None text
      else if re_search _s text then
        match rest with
        | [] => split_with _s None text
        | _ => split_with _s (Some (fun s => _split_text s rest)) text
        end
      else
        match rest with
        | [] => split_with _s None text
        | _ => _split_text text rest
        end
  end.

(** [self.split_text(text)]. *)
Definition split_text (text : string) : result (list string) :=
  _split_text text (_separators self).

(** [self.create_documents(texts)], with the default [metadatas=None]. *)
Fixpoint create_documents (texts : list string) : result (list Document) :=
  match texts with
  | [] => Ok []
  | text :: more =>
      let* chunks := split_text text in
      let* documents := create_documents more in
      Ok (map (fun chunk => {| page_content := chunk; metadata := [] |}) chunks
          ++ documents)
  end.

End Methods.

End text_splitter.

Import text_splitter.

(* ===================================================================== *)
(** * app/rag_service.py *)
(* ===================================================================== *)

Module rag_service.

(** ** The collaborators *)

(** A caption snippet as [YouTubeTranscriptApi.fetch] returns it.  The
    service reads [text] only; [start] and [duration] are carried along. *)
Record FetchedTranscriptSnippet : Type := {
  text : string;
  start : Q;
  duration : Q
}.

Record FetchedTranscript : Type := {
  snippets : list FetchedTranscriptSnippet
}.

(** An embedding vector. *)
Definition EmbeddingVector : Type := list Q.

(** What lies outside the process, as it answers during one call:
    - [ytt_fetch video_id languages]: the transcription service;
    - [embed text]: the embedding service, for passages and questions alike
      ([embed_query] is [embed_documents] on one text);
    - [nearer q u v]: under the metric of the vector index, [u] is at
      least as close to [q] as [v] is;
    - [complete prompt_text]: the generation service, its reply already
      reduced to text by [StrOutputParser]. *)
Record World : Type := {
  ytt_fetch : string -> list string -> result FetchedTranscript;
  embed : string -> result EmbeddingVector;
  nearer : EmbeddingVector -> EmbeddingVector -> EmbeddingVector -> bool;
  complete : string -> result string
}.

(** ** The objects the service holds *)

Record OpenAIEmbeddings : Type := { embedding_model : string }.

Record ChatOpenAI : Type := { model : string; temperature : Q }.

Record PromptTemplate : Type := {
  template : string;
  input_variables : list string
}.

(** [FAISS]: the vectors of the index, each with the document it stands
    for, in insertion order. *)
Record FAISS : Type := {
  entries : list (EmbeddingVector * Document)
}.

(** [VectorStoreRetriever]: bound to one vector store when it is built. *)
Record VectorStoreRetriever : Type := {
  vectorstore : FAISS;
  search_type : string;
  search_kwargs_k : nat
}.

(** The chain [_setup_chain] composes:
    [{context: retriever | format_docs, question: passthrough}
     | prompt | llm | StrOutputParser()].
    It holds the retriever, the prompt and the model it was composed
    from. *)
Record RunnableSequence : Type := {
  context_retriever : VectorStoreRetriever;
  chain_prompt : PromptTemplate;
  chain_llm : ChatOpenAI
}.

(** The attributes of a [RAGService] instance. *)
Record RAGService : Type := {
  embeddings : OpenAIEmbeddings;
  llm : ChatOpenAI;
  text_splitter : RecursiveCharacterTextSplitter;
  vector_store : option FAISS;
  retriever : option VectorStoreRetriever;
  chain : option RunnableSequence;
  current_video_id : option string;
  prompt : PromptTemplate
}.

(** ** Effects: state, exceptions and a trace *)

(** What a call does that another party can see: a request to a
    collaborator, or an assignment to an attribute of the service (with
    the state right after it).  [Embed] is the call for the vector of one
    text (a question), [EmbedDocuments] the one call for the vectors of
    all the texts of an ingestion. *)
Inductive event : Type :=
| Fetch (video_id : string) (languages : list string)
| Embed (text : string)
| EmbedDocuments (texts : list string)
| Complete (prompt_text : string)
| Assign (after : RAGService).

Record outcome (A : Type) : Type := {
  value : result A;
  state : RAGService;
  trace : list event
}.
Arguments value {A} o.
Arguments state {A} o.
Arguments trace {A} o.

Definition M (A : Type) : Type := RAGService -> outcome A.

Definition ret {A} (a : A) : M A :=
  fun s => {| value := Ok a; state := s; trace := [] |}.

Definition raise {A} (e : exn) : M A :=
  fun s => {| value := Raise e; state := s; trace := [] |}.

Definition bind {A B} (m : M A) (k : A -> M B) : M B :=
  fun s =>
    let o := m s in
    match value o with
    | Ok a =>
        let o' := k a (state o) in
        {| value := value o'; state := state o';
           trace := trace o ++ trace o' |}
    | Raise e => {| value := Raise e; state := state o; trace := trace o |}
    end.

(** [try: body  except Exception as e: handler(e)]. *)
Definition try_except {A} (body : M A) (handler : exn -> M A) : M A :=
  fun s =>
    let o := body s in
    match value o with
    | Ok _ => o
    | Raise e =>
        let o' := handler e (state o) in
        {| value := value o'; state := state o';
           trace := trace o ++ trace o' |}
    end.

(** Reading [self]. *)
Definition get : M RAGService :=
  fun s => {| value := Ok s; state := s; trace := [] |}.

(** An assignment [self.attr = v]. *)
Definition assign (update : RAGService -> RAGService) : M unit :=
  fun s =>
    {| value := Ok tt; state := update s; trace := [Assign (update s)] |}.

(** A request to a collaborator. *)
Definition request {A} (ev : event) (answer : result A) : M A :=
  fun s => {| value := answer; state := s; trace := [ev] |}.

(** A pure computation that may raise. *)
Definition lift {A} (r : result A) : M A :=
  fun s => {| value := r; state := s; trace := [] |}.

Declare Scope service_scope.
Notation "x <- m ;; k" := (bind m (fun x => k))
  (at level 61, m at next level, right associativity) : service_scope.
Notation "m ;; k" := (bind m (fun _ => k))
  (at level 61, right associativity) : service_scope.
Local Open Scope service_scope.

(** ** Attribute updates *)

Definition set_vector_store (v : option FAISS) (s : RAGService) : RAGService :=
  {| embeddings := embeddings s; llm := llm s;
     text_splitter := text_splitter s;
     vector_store := v; retriever := retriever s; chain := chain s;
     current_video_id := current_video_id s; prompt := prompt s |}.

Definition set_retriever (r : option VectorStoreRetriever) (s : RAGService)
  : RAGService :=
  {| embeddings := embeddings s; llm := llm s;
     text_splitter := text_splitter s;
     vector_store := vector_store s; retriever := r; chain := chain s;
     current_video_id := current_video_id s; prompt := prompt s |}.

Definition set_chain (c : option RunnableSequence) (s : RAGService)
  : RAGService :=
  {| embeddings := embeddings s; llm := llm s;
     text_splitter := text_splitter s;
     vector_store := vector_store s; retriever := retriever s; chain := c;
     current_video_id := current_video_id s; prompt := prompt s |}.

Definition set_current_video_id (v : option string) (s : RAGService)
  : RAGService :=
  {| embeddings := embeddings s; llm := llm s;
     text_splitter := text_splitter s;
     vector_store := vector_store s; retriever := retriever s;
     chain := chain s;
     current_video_id := v; prompt := prompt s |}.

(** ** The library calls the methods make *)

(** [PromptTemplate.format] with keyword arguments, for a template without doubled
    braces: every [{name}] is replaced by the value bound to [name].
    [field] holds the name being read, when inside braces. *)
Fixpoint format_from
    (tpl : string) (field : option string) (kwargs : list (string * string))
    : result string :=
  match tpl with
  | EmptyString =>
      match field with
      | None => Ok EmptyString
      | Some _ => Raise (ValueError "expected '}' before end of string")
      end
  | String c t =>
      match field with
      | None =>
          if Ascii.eqb c "{"%char then format_from t (Some EmptyString) kwargs
          else let* r := format_from t None kwargs in Ok (String c r)
      | Some name =>
          if Ascii.eqb c "}"%char then
            match find (fun kv => String.eqb (fst kv) name) kwargs with
            | Some kv =>
                let* r := format_from t None kwargs in
                Ok (snd kv ++ r)%string
            | None => Raise (KeyError name)
            end
          else format_from t (Some (name ++ String c EmptyString)%string) kwargs
      end
  end.

Definition format (p : PromptTemplate) (kwargs : list (string * string))
  : result string :=
  format_from (template p) None kwargs.

(** What the embedding service answers for a batch of texts: one vector
    per text, in order, or the failure of the first text it fails on. *)
Fixpoint batch_vectors (w : World) (texts : list string)
  : result (list EmbeddingVector) :=
  match texts with
  | [] => Ok []
  | t :: more =>
      let* v := embed w t in
      let* vs := batch_vectors w more in
      Ok (v :: vs)
  end.

(** [embeddings.embed_documents(texts)]: the one call [FAISS.from_documents]
    makes for all the texts.  The client sends them to the embedding
    service together, not text by text, and sends nothing when there is
    no text. *)
Definition embed_documents (w : World) (texts : list string)
  : M (list EmbeddingVector) :=
  match texts with
  | [] => ret []
  | _ => request (EmbedDocuments texts) (batch_vectors w texts)
  end.

(** [FAISS.from_documents(documents, embeddings)].  The index is sized
    with [len(embeddings[0])], which raises on an empty list. *)
Definition from_documents (w : World) (documents : list Document) : M FAISS :=
  vectors <- embed_documents w (map page_content documents) ;;
  match vectors with
  | [] => raise (IndexError "list index out of range")
  | _ => ret {| entries := combine vectors documents |}
  end.

(** [vector_store.as_retriever(search_type=..., search_kwargs={"k": k})]. *)
Definition as_retriever (vs : FAISS) (search_type : string) (k : nat)
  : VectorStoreRetriever :=
  {| vectorstore := vs; search_type := search_type; search_kwargs_k := k |}.

(** The index search: the entries ordered by distance to the query, an
    earlier entry first among equally distant ones. *)
Fixpoint insert_entry
    (w : World) (q : EmbeddingVector) (e : EmbeddingVector * Document)
    (sorted : list (EmbeddingVector * Document))
    : list (EmbeddingVector * Document) :=
  match sorted with
  | [] => [e]
  | x :: xs =>
      if nearer w q (fst e) (fst x) then e :: x :: xs
      else x :: insert_entry w q e xs
  end.

Definition ranked (w : World) (q : EmbeddingVector)
    (l : list (EmbeddingVector * Document))
    : list (EmbeddingVector * Document) :=
  fold_right (insert_entry w q) [] l.

(** [vectorstore.similarity_search(query, k=k)]. *)
Definition similarity_search (w : World) (vs : FAISS) (query : string) (k : nat)
  : M (list Document) :=
  q <- request (Embed query) (embed w query) ;;
  ret (map snd (firstn k (ranked w q (entries vs)))).

(** [retriever.invoke(question)]. *)
Definition retriever_invoke
    (w : World) (r : VectorStoreRetriever) (question : string)
  : M (list Document) :=
  similarity_search w (vectorstore r) question (search_kwargs_k r).

(** [format_docs], the local function of [_setup_chain]. *)
Definition format_docs (retrieved_docs : list Document) : string :=
  join (LF ++ LF) (map page_content retrieved_docs).

(** [chain.invoke(question)]: retrieve, format, fill the prompt, call the
    model, return its text. *)
Definition chain_invoke (w : World) (c : RunnableSequence) (question : string)
  : M string :=
  retrieved_docs <- retriever_invoke w (context_retriever c) question ;;
  prompt_text <- lift (format (chain_prompt c)
                         [("context", format_docs retrieved_docs);
                          ("question", question)]) ;;
  request (Complete prompt_text) (complete w prompt_text).

(** ** The methods of [RAGService] *)

Definition indent : string := "            ".

Definition template_text : string :=
  LF ++ indent
  ++ "You are a helpful assistant. Answer ONLY from the provided transcript context. "
  ++ LF ++ indent
  ++ "If the context is insufficient to answer the query, just say you don't know."
  ++ LF ++ indent
  ++ LF ++ indent ++ "Context: {context}"
  ++ LF ++ indent ++ "Question: {question}"
  ++ LF ++ indent
  ++ LF ++ indent ++ "Answer:"
  ++ LF ++ indent.

(** [RAGService.__init__]. *)
Definition __init__ : RAGService :=
  {| embeddings := {| embedding_model := "text-embedding-3-small" |};
     llm := {| model := "gpt-4o-mini"; temperature := 6 # 10 |};
     text_splitter :=
       {| _chunk_size := 1000; _chunk_overlap := 200;
          _keep_separator := true; _strip_whitespace := true;
          _separators := [(LF ++ LF)%string; LF; " "; ""] |};
     vector_store := None;
     retriever := None;
     chain := None;
     current_video_id := None;
     prompt := {| template := template_text;
                  input_variables := ["context"; "question"] |} |}.

(** [RAGService.fetch_transcript]. *)
Definition fetch_transcript (w : World) (video_id : string) : M string :=
  try_except
    (trans_list <- request (Fetch video_id ["en"])
                     (ytt_fetch w video_id ["en"]) ;;
     let transcript_text := join " " (map text (snippets trans_list)) in
     ret transcript_text)
    (fun e =>
       match e with
       | TranscriptsDisabled _ =>
           raise (Exception "Transcripts are disabled for this video")
       | _ => raise (Exception ("Failed to fetch transcript: " ++ str e))
       end).

(** [RAGService.process_transcript]. *)
Definition process_transcript (transcript_text : string) : M (list Document) :=
  try_except
    (self <- get ;;
     chunks <- lift (create_documents (text_splitter self) [transcript_text]) ;;
     ret chunks)
    (fun e => raise (Exception ("Failed to process transcript: " ++ str e))).

(** [RAGService._setup_chain].  [None | RunnableLambda(...)] raises a
    [TypeError]. *)
Definition _setup_chain : M unit :=
  try_except
    (self <- get ;;
     match retriever self with
     | None => raise (TypeError "Expected a Runnable, callable or dict.")
     | Some r =>
         assign (set_chain
                   (Some {| context_retriever := r;
                            chain_prompt := prompt self;
                            chain_llm := llm self |}))
     end)
    (fun e => raise (Exception ("Failed to setup RAG chain: " ++ str e))).

(** [RAGService.create_vector_store]. *)
Definition create_vector_store (w : World) (chunks : list Document) : M unit :=
  try_except
    (vs <- from_documents w chunks ;;
     assign (set_vector_store (Some vs)) ;;
     self <- get ;;
     match vector_store self with
     | None =>
         raise (AttributeError
                  "'NoneType' object has no attribute 'as_retriever'")
     | Some store =>
         assign (set_retriever (Some (as_retriever store "similarity" 2))) ;;
         _setup_chain
     end)
    (fun e => raise (Exception ("Failed to create vector store: " ++ str e))).

(** A Python value stored in the result dict. *)
Inductive value_t : Type :=
| VStr (s : string)
| VInt (n : Z).

(** A dict with string keys, in insertion order. *)
Definition dict : Type := list (string * value_t).

(** [d[key]]. *)
Fixpoint getitem (d : dict) (key : string) : result value_t :=
  match d with
  | [] => Raise (KeyError key)
  | (k, v) :: rest => if String.eqb k key then Ok v else getitem rest key
  end.

(** [RAGService.process_video]. *)
Definition process_video (w : World) (video_id : string) : M dict :=
  try_except
    (transcript_text <- fetch_transcript w video_id ;;
     chunks <- process_transcript transcript_text ;;
     create_vector_store w chunks ;;
     assign (set_current_video_id (Some video_id)) ;;
     let result :=
       [("message", VStr "Video processed successfully");
        ("video_id", VStr video_id);
        ("chunks_count", VInt (Z.of_nat (length chunks)));
        ("transcript_length", VInt (len transcript_text))] in
     ret result)
    (fun e => raise e).

(** [RAGService.ask_question]. *)
Definition ask_question (w : World) (question : string) : M string :=
  try_except
    (self <- get ;;
     match chain self with
     | None =>
         raise (Exception
                  "No video has been processed yet. Please process a video first.")
     | Some c =>
         answer <- chain_invoke w c question ;;
         ret answer
     end)
    (fun e => raise (Exception ("Failed to answer question: " ++ str e))).

(** [RAGService.is_ready]. *)
Definition is_ready (self : RAGService) : bool :=
  match chain self, current_video_id self with
  | Some _, Some _ => true
  | _, _ => false
  end.

(** [RAGService.get_current_video_id]. *)
Definition get_current_video_id (self : RAGService) : option string :=
  current_video_id self.

End rag_service.

(* ===================================================================== *)
(** * app/models.py *)
(* ===================================================================== *)

Module models.

Module ChatRequest.
Record t : Type := { question : string; video_id : option string }.
End ChatRequest.

Module ChatResponse.
Record t : Type := { answer : string; status : string }.
End ChatResponse.

Module ProcessVideoRequest.
Record t : Type := { video_id : string }.
End ProcessVideoRequest.

Module ProcessVideoResponse.
Record t : Type := {
  message : string;
  video_id : string;
  chunks_count : Z;
  status : string
}.
End ProcessVideoResponse.

Module HealthResponse.
Record t : Type := { status : string; message : string }.
End HealthResponse.

End models.

(* ===================================================================== *)
(** * app/main.py *)
(* ===================================================================== *)

Module main.

Import models.
Import rag_service.

(** A handler runs against the module-level [rag_service] variable, which
    is [None] until the lifespan hook has built the service, and leaves
    the service object in its new state. *)
Definition handler (A : Type) : Type :=
  option RAGService -> result A * option RAGService.

(** The body of [ProcessVideoResponse(message=result["message"], ...)]. *)
Definition build_response (result : dict) : Py.result ProcessVideoResponse.t :=
  let* m := getitem result "message" in
  let* v := getitem result "video_id" in
  let* c := getitem result "chunks_count" in
  match m, v, c with
  | VStr m, VStr v, VInt c =>
      Ok {| ProcessVideoResponse.message := m;
            ProcessVideoResponse.video_id := v;
            ProcessVideoResponse.chunks_count := c;
            ProcessVideoResponse.status := "success" |}
  | _, _, _ => Raise (ValueError "validation error for ProcessVideoResponse")
  end.

(** [process_video], the handler of POST /process-video.  Every exception
    of the [try] block, the 503 included, is turned into a 400. *)
Definition process_video (w : World) (request : ProcessVideoRequest.t)
  : handler ProcessVideoResponse.t :=
  fun g =>
    let bad_request (e : exn) := HTTPException 400 (str e) in
    match g with
    | None =>
        (Raise (bad_request (HTTPException 503 "RAG service is not available")),
         g)
    | Some svc =>
        let o := rag_service.process_video w
                   (ProcessVideoRequest.video_id request) svc in
        match value o with
        | Ok result =>
            match build_response result with
            | Ok response => (Ok response, Some (state o))
            | Raise e => (Raise (bad_request e), Some (state o))
            end
        | Raise e => (Raise (bad_request e), Some (state o))
        end
    end.

(** [chat], the handler of POST /chat.  An [HTTPException] raised inside
    the [try] block passes through; any other exception becomes a 500. *)
Definition chat (w : World) (request : ChatRequest.t)
  : handler ChatResponse.t :=
  fun g =>
    match g with
    | None => (Raise (HTTPException 503 "RAG service is not available"), g)
    | Some svc =>
        if negb (is_ready svc) then
          (Raise (HTTPException 400
                    "No video has been processed yet. Please process a video first using /process-video endpoint."),
           g)
        else
          let o := ask_question w (ChatRequest.question request) svc in
          match value o with
          | Ok answer =>
              (Ok {| ChatResponse.answer := answer;
                     ChatResponse.status := "success" |},
               Some (state o))
          | Raise (HTTPException c d) =>
              (Raise (HTTPException c d), Some (state o))
          | Raise e =>
              (Raise (HTTPException 500
                        ("Failed to process question: " ++ str e)),
               Some (state o))
          end
    end.

(** The dict [get_status] returns. *)
Record status_t : Type := {
  service_status : string;
  current_video_id : option string;
  ready_for_questions : bool
}.

(** [get_status], the handler of GET /status. *)
Definition get_status : handler status_t :=
  fun g =>
    match g with
    | None =>
        (Ok {| service_status := "not_initialized";
               current_video_id := None;
               ready_for_questions := false |}, g)
    | Some svc =>
        (Ok {| service_status := "initialized";
               current_video_id := get_current_video_id svc;
               ready_for_questions := is_ready svc |}, g)
    end.

(** [root], the handler of GET /. *)
Definition root : handler HealthResponse.t :=
  fun g =>
    (Ok {| HealthResponse.status := "healthy";
           HealthResponse.message :=
             "ChatTube RAG API is running successfully" |}, g).

(** [health_check], the handler of GET /health.  The 503 raised inside the
    [try] block is caught by its [except Exception] and replaced. *)
Definition health_check : handler HealthResponse.t :=
  fun g =>
    let body : Py.result HealthResponse.t :=
      match g with
      | None => Raise (HTTPException 503 "RAG service is not initialized")
      | Some _ =>
          Ok {| HealthResponse.status := "healthy";
                HealthResponse.message := "All services are operational" |}
      end in
    match body with
    | Ok response => (Ok response, g)
    | Raise _ => (Raise (HTTPException 503 "Service is not healthy"), g)
    end.

End main.

(* ===================================================================== *)
(** * Sessions and scenarios *)
(* ===================================================================== *)

Import rag_service.

(** A session is a sequence of calls on one service object, each answered
    by the world as it is at that moment. *)
Module session.

Inductive op : Type :=
| ProcessVideo (w : World) (video_id : string)
| AskQuestion (w : World) (question : string)
| IsReady
| GetCurrentVideoId.

(** The state one call leaves behind. *)
Definition step (o : op) (s : RAGService) : RAGService :=
  match o with
  | ProcessVideo w video_id => state (process_video w video_id s)
  | AskQuestion w question => state (ask_question w question s)
  | IsReady | GetCurrentVideoId => s
  end.

Definition run (ops : list op) (s : RAGService) : RAGService :=
  fold_left (fun s o => step o s) ops s.

(** Was the call an ingestion that returned normally? *)
Definition succeeded (o : op) (s : RAGService) : bool :=
  match o with
  | ProcessVideo w video_id => is_ok (value (process_video w video_id s))
  | _ => false
  end.

(** Has some ingestion of the session returned normally? *)
Fixpoint ingested (ops : list op) (s : RAGService) : bool :=
  match ops with
  | [] => false
  | o :: rest => succeeded o s || ingested rest (step o s)
  end.

(** The states another party can see while a call runs: the state before
    it, then the state after each assignment. *)
Fixpoint assigned (t : list event) : list RAGService :=
  match t with
  | [] => []
  | Assign s :: rest => s :: assigned rest
  | _ :: rest => assigned rest
  end.

Definition observable {A} (m : M A) (s : RAGService) : list RAGService :=
  s :: assigned (trace (m s)).

(** The requests a call sends to the transcription service. *)
Definition fetches (t : list event) : list event :=
  filter (fun ev => match ev with Fetch _ _ => true | _ => false end) t.

End session.

Import session.

(** Concrete worlds used to run the model. *)
Module scenario.

Definition snippet (t : string) : FetchedTranscriptSnippet :=
  {| text := t; start := 0; duration := 1 |}.

(** Squared Euclidean distance, and its comparison. *)
Definition l2 (q u : EmbeddingVector) : Q :=
  fold_right (fun p acc => ((fst p - snd p) * (fst p - snd p) + acc)%Q) 0%Q
    (combine q u).

Definition nearer_l2 (q u v : EmbeddingVector) : bool :=
  Qle_bool (l2 q u) (l2 q v).

(** A world in which every service answers: each video has the captions
    [captions] lists for it, a text is embedded as its length, and the
    generation service echoes its prompt. *)
Definition serving (captions : list (string * list string)) : World :=
  {| ytt_fetch := fun video_id _ =>
       match find (fun kv => String.eqb (fst kv) video_id) captions with
       | Some kv => Ok {| snippets := map snippet (snd kv) |}
       | None => Raise (Exception "Could not retrieve a transcript")
       end;
     embed := fun t => Ok [inject_Z (len t)];
     nearer := nearer_l2;
     complete := fun p => Ok p |}.

Definition cats : World :=
  serving [("abc12345678", ["cats are great pets"; "cats purr"]);
           ("xyz12345678", ["dogs bark"; "dogs fetch sticks"; "dogs"])].

(** The same world with its caption service replaced. *)
Definition with_fetch (w : World)
    (f : string -> list string -> result FetchedTranscript) : World :=
  {| ytt_fetch := f; embed := embed w; nearer := nearer w;
     complete := complete w |}.

(** The same world with the embedding service down. *)
Definition embedding_down (w : World) : World :=
  {| ytt_fetch := ytt_fetch w;
     embed := fun _ => Raise (Exception "Connection error.");
     nearer := nearer w; complete := complete w |}.

(** The same world with the generation service failing with [msg]. *)
Definition generation_failing (w : World) (msg : string) : World :=
  {| ytt_fetch := ytt_fetch w; embed := embed w; nearer := nearer w;
     complete := fun _ => Raise (Exception msg) |}.

(** The service after scenario 1: video abc12345678 ingested. *)
Definition after_cats : RAGService :=
  state (process_video cats "abc12345678" __init__).

(** The world of scenario 1 with the embedding service down. *)
Definition cats_embedding_down : World := embedding_down cats.

(** The world of scenario 1 with a generation service that fails with the
    words the service itself uses when it has no chain. *)
Definition cats_generation_failing : World :=
  generation_failing cats
    "No video has been processed yet. Please process a video first.".

(** The second ingestion of the re-ingestion scenario. *)
Definition reingest : M dict := process_video cats "xyz12345678".

(** The caption snippets of video abc12345678. *)
Definition cats_transcript : FetchedTranscript :=
  {| snippets := [snippet "cats are great pets"; snippet "cats purr"] |}.

Definition what_do_cats_do : models.ChatRequest.t :=
  {| models.ChatRequest.question := "what do cats do?";
     models.ChatRequest.video_id := None |}.

End scenario.

(** The vocabulary of the specification, as the code realises it. *)
Module spec.

(** "Concatenation of all caption snippets in their returned order, joined
    with single spaces": the first text, then every later text behind one
    space. *)
Definition spaced_concat (texts : list string) : string :=
  match texts with
  | [] => EmptyString
  | t :: rest => fold_left (fun acc u => (acc ++ " " ++ u)%string) rest t
  end.

(** The failure conditions of the fetcher: what [fetch_transcript] raises
    for each. *)
Definition TranscriptUnavailable : exn :=
  Exception "Transcripts are disabled for this video".

Definition FetchFailed (provider_message : string) : exn :=
  Exception ("Failed to fetch transcript: " ++ provider_message).

(** A computation that leaves the attributes of the service alone: it
    assigns nothing and ends in the state it started from. *)
Definition stateless {A} (m : M A) : Prop :=
  forall s, state (m s) = s /\ assigned (trace (m s)) = [].

(** What a successful ingestion installs, given the index it built: the
    retriever over that index and the chain over that retriever. *)
Definition new_retriever (vs : FAISS) : VectorStoreRetriever :=
  as_retriever vs "similarity" 2.

Definition new_chain (vs : FAISS) (s : RAGService) : RunnableSequence :=
  {| context_retriever := new_retriever vs;
     chain_prompt := prompt s;
     chain_llm := llm s |}.

(** The four states a successful ingestion passes through after its
    first, second, third and fourth assignment. *)
Definition stage1 (vs : FAISS) (s : RAGService) : RAGService :=
  set_vector_store (Some vs) s.

Definition stage2 (vs : FAISS) (s : RAGService) : RAGService :=
  set_retriever (Some (new_retriever vs)) (stage1 vs s).

Definition stage3 (vs : FAISS) (s : RAGService) : RAGService :=
  set_chain (Some (new_chain vs s)) (stage2 vs s).

Definition stage4 (vs : FAISS) (video_id : string) (s : RAGService)
  : RAGService :=
  set_current_video_id (Some video_id) (stage3 vs s).

(** The vectors of a list of texts, without the state. *)
Fixpoint embed_all (w : World) (texts : list string)
  : result (list EmbeddingVector) :=
  match texts with
  | [] => Ok []
  | t :: more =>
      let* v := embed w t in
      let* vs := embed_all w more in
      Ok (v :: vs)
  end.

(** The index of a list of documents, without the state. *)
Definition build_index (w : World) (documents : list Document) : result FAISS :=
  let* vectors := embed_all w (map page_content documents) in
  match vectors with
  | [] => Raise (IndexError "list index out of range")
  | _ => Ok {| entries := combine vectors documents |}
  end.

(** "Substitute context and the literal question into a fixed prompt
    template": the text of the template with the two values in the place
    of its two fields. *)
Definition filled_prompt (context question : string) : string :=
  LF ++ indent
  ++ "You are a helpful assistant. Answer ONLY from the provided transcript context. "
  ++ LF ++ indent
  ++ "If the context is insufficient to answer the query, just say you don't know."
  ++ LF ++ indent
  ++ LF ++ indent ++ "Context: " ++ context
  ++ LF ++ indent ++ "Question: " ++ question
  ++ LF ++ indent
  ++ LF ++ indent ++ "Answer:"
  ++ LF ++ indent.

(** "Concatenate passage texts with a blank-line separator, preserving
    retrieval order". *)
Fixpoint blank_line_concat (texts : list string) : string :=
  match texts with
  | [] => EmptyString
  | [t] => t
  | t :: rest => t ++ LF ++ LF ++ blank_line_concat rest
  end.

(** The passages a question retrieves from an index: the documents of the
    two entries nearest to the vector of the question, nearest first. *)
Definition nearest_two (w : World) (q : EmbeddingVector) (vs : FAISS)
  : list Document :=
  map snd (firstn 2 (ranked w q (entries vs))).

(** What the answer chain over the index [vs] returns for a question. *)
Definition chain_answer (w : World) (vs : FAISS) (question : string)
  : result string :=
  let* q := embed w question in
  let context := blank_line_concat (map page_content (nearest_two w q vs)) in
  complete w (filled_prompt context question).

(** The failure [ask_question] raises for the failure [e] of its body. *)
Definition AnswerFailed (e : exn) : exn :=
  Exception ("Failed to answer question: " ++ str e).

(** The failure the body of [ask_question] raises on a service without a
    chain. *)
Definition NoVideoYet : exn :=
  Exception "No video has been processed yet. Please process a video first.".

(** The error the chat handler answers with when the service is not
    ready. *)
Definition NotReady : exn :=
  HTTPException 400
    "No video has been processed yet. Please process a video first using /process-video endpoint.".

(** The states of a service built by [__init__]: the configuration is the
    initial one, and a chain, when there is one, is the chain over some
    index, composed from that configuration. *)
Definition well_formed (s : RAGService) : Prop :=
  embeddings s = embeddings __init__
  /\ llm s = llm __init__
  /\ text_splitter s = text_splitter __init__
  /\ prompt s = prompt __init__
  /\ (chain s = None \/ exists vs, chain s = Some (new_chain vs __init__)).

(** The dict a successful ingestion returns. *)
Definition success_dict
    (video_id transcript_text : string) (chunks : list Document) : dict :=
  [("message", VStr "Video processed successfully");
   ("video_id", VStr video_id);
   ("chunks_count", VInt (Z.of_nat (length chunks)));
   ("transcript_length", VInt (len transcript_text))].

End spec.

Import spec.

(** Further notions the properties of the splitter and of sessions are
    stated with. *)
Module notions.

(** [text.strip() == ""]: every character is whitespace. *)
Fixpoint blank (text : string) : bool :=
  match text with
  | EmptyString => true
  | String c t => isspace c && blank t
  end.

(** A chunk as the splitter of the service hands it out: not empty and no
    longer than the chunk size. *)
Definition chunk_ok (self : RecursiveCharacterTextSplitter) (c : string) : Prop :=
  c <> EmptyString /\ len c <= _chunk_size self.

(** What a flush of [_merge_splits] adds to the documents when the pieces
    are joined without separator: their stripped text, unless they are all
    whitespace. *)
Definition flushed (current_doc : list string) : list string :=
  if blank (Py.concat current_doc) then []
  else [strip (Py.concat current_doc)].

(** The video id of an ingestion call. *)
Definition ingestion_id (o : op) : option string :=
  match o with
  | ProcessVideo _ video_id => Some video_id
  | _ => None
  end.

(** The id of the last ingestion of a session that returned normally,
    [acc] when there is none. *)
Fixpoint last_ingested (ops : list op) (s : RAGService) (acc : option string)
  : option string :=
  match ops with
  | [] => acc
  | o :: rest =>
      last_ingested rest (step o s)
        (if succeeded o s then ingestion_id o else acc)
  end.

(** The attributes of a session are set together or not at all; when set,
    the retriever is over the index, the chain over the retriever, and the
    index holds proper chunks, at least one. *)
Definition consistent (s : RAGService) : Prop :=
  (vector_store s = None /\ retriever s = None /\ chain s = None
   /\ current_video_id s = None)
  \/ (exists vs video_id,
        vector_store s = Some vs
        /\ retriever s = Some (new_retriever vs)
        /\ chain s = Some (new_chain vs __init__)
        /\ current_video_id s = Some video_id
        /\ entries vs <> []
        /\ Forall (fun d => chunk_ok (text_splitter __init__) (page_content d))
             (map snd (entries vs))).

(** The same, attribute by attribute: the four attributes are unset
    together, or set together with the retriever bound to the very index
    [vector_store] holds, searching it by similarity for k = 2 entries,
    the chain reading through that retriever and composed with the prompt
    and the model of [__init__], and the index holding proper chunks, at
    least one. *)
Definition coherent (s : RAGService) : Prop :=
  (vector_store s = None /\ retriever s = None /\ chain s = None
   /\ current_video_id s = None)
  \/ (exists vs r c video_id,
        vector_store s = Some vs
        /\ retriever s = Some r
        /\ chain s = Some c
        /\ current_video_id s = Some video_id
        /\ vectorstore r = vs
        /\ search_type r = "similarity"
        /\ search_kwargs_k r = 2%nat
        /\ context_retriever c = r
        /\ chain_prompt c = prompt __init__
        /\ chain_llm c = llm __init__
        /\ entries vs <> []
        /\ Forall (fun d => page_content d <> EmptyString
                            /\ len (page_content d) <= 1000)
             (map snd (entries vs))).

(** What an ingestion sends to the embedding service for the texts of
    its chunks: one call with all of them, nothing when there is none. *)
Definition sent (texts : list string) : list event :=
  match texts with
  | [] => []
  | _ => [EmbedDocuments texts]
  end.

(** Does the embedding service answer for every chunk? *)
Definition all_embed (w : World) (chunks : list Document) : bool :=
  forallb (fun d => is_ok (embed w (page_content d))) chunks.

(** The failure of [create_vector_store] with the given cause. *)
Definition VectorStoreFailed (e : exn) : exn :=
  Exception ("Failed to create vector store: " ++ str e).

(** What sizing the index raises when there is no vector. *)
Definition NoVector : exn := IndexError "list index out of range".

End notions.

Import notions.

(** Further concrete inputs to run the model on. *)
Module cases.

Import scenario.

(** [t * n]. *)
Fixpoint times (t : string) (n : nat) : string :=
  match n with
  | O => EmptyString
  | S k => (t ++ times t k)%string
  end.

(** A transcript of 3000 characters. *)
Definition long_transcript : string := times "cats purr " 300.

(** The chunks the service makes of it. *)
Definition long_chunks : list Document :=
  match create_documents (text_splitter __init__) [long_transcript] with
  | Ok chunks => chunks
  | Raise _ => []
  end.

(** A world in which the video has captions without any text. *)
Definition silent : World := serving [("abc12345678", [" "; ""; "  "])].

(** A world in which the embedding service fails on texts longer than
    twelve characters. *)
Definition picky : World :=
  {| ytt_fetch := ytt_fetch cats;
     embed := fun t =>
       if (12 <? len t) then Raise (Exception "Rate limit reached")
       else embed cats t;
     nearer := nearer cats;
     complete := complete cats |}.

(** A session: a failed ingestion, a question, two ingestions, a failed
    one. *)
Definition busy_session : list op :=
  [ProcessVideo cats "nope1234567";
   AskQuestion cats "anyone there?";
   ProcessVideo cats "abc12345678";
   ProcessVideo cats "xyz12345678";
   IsReady;
   ProcessVideo cats_embedding_down "abc12345678"].

(** An index of three passages, and the vector of a question. *)
Definition passage (t : string) : Document :=
  {| page_content := t; metadata := [] |}.

Definition three_passages : FAISS :=
  {| entries := [([5%Q], passage "far"); ([1%Q], passage "near");
                 ([3%Q], passage "nearer")] |}.

Definition a_question : EmbeddingVector := [2%Q].

(** A world in which video lec12345678 has the long transcript. *)
Definition lecture : World := serving [("lec12345678", [long_transcript])].

(** The ingestions the examples run. *)
Definition ingest_cats : M dict := process_video cats "abc12345678".

Definition ingest_dogs_picky : M dict := process_video picky "xyz12345678".

Definition ingest_silent : M dict := process_video silent "abc12345678".

End cases.

(** The application as a client meets it: a request is validated against
    its model of app/models.py, handed to its handler of app/main.py, and
    answered with a status code. *)
Module server.

Import models.

(** [ProcessVideoRequest(video_id=...)]: [min_length=11, max_length=11]. *)
Definition ProcessVideoRequest_validate (video_id : string)
  : option ProcessVideoRequest.t :=
  if (11 <=? len video_id) && (len video_id <=? 11)
  then Some {| ProcessVideoRequest.video_id := video_id |}
  else None.

(** [ChatRequest(question=..., video_id=...)]: [min_length=1] on the
    question, nothing on the optional video id. *)
Definition ChatRequest_validate (question : string) (video_id : option string)
  : option ChatRequest.t :=
  if 1 <=? len question
  then Some {| ChatRequest.question := question;
               ChatRequest.video_id := video_id |}
  else None.

Inductive request : Type :=
| POST_process_video (w : World) (video_id : string)
| POST_chat (w : World) (question : string) (video_id : option string)
| GET_status
| GET_health
| GET_root.

(** The status code of a handler's outcome: 200 for a response, the code
    of an [HTTPException], and the 500 of [global_exception_handler] for
    any other exception. *)
Definition status_code {A} (r : result A) : Z :=
  match r with
  | Ok _ => 200
  | Raise (HTTPException c _) => c
  | Raise _ => 500
  end.

(** One request: 422 when the body does not validate, else the handler. *)
Definition serve (r : request) (g : option RAGService)
  : Z * option RAGService :=
  match r with
  | POST_process_video w video_id =>
      match ProcessVideoRequest_validate video_id with
      | None => (422, g)
      | Some body =>
          (status_code (fst (main.process_video w body g)),
           snd (main.process_video w body g))
      end
  | POST_chat w question video_id =>
      match ChatRequest_validate question video_id with
      | None => (422, g)
      | Some body =>
          (status_code (fst (main.chat w body g)),
           snd (main.chat w body g))
      end
  | GET_status =>
      (status_code (fst (main.get_status g)), snd (main.get_status g))
  | GET_health =>
      (status_code (fst (main.health_check g)), snd (main.health_check g))
  | GET_root => (status_code (fst (main.root g)), snd (main.root g))
  end.

(** The requests of a client, one after the other: the codes answered and
    the service at the end. *)
Fixpoint serve_all (rs : list request) (g : option RAGService)
  : list Z * option RAGService :=
  match rs with
  | [] => ([], g)
  | r :: rest =>
      let (codes, g') := serve_all rest (snd (serve r g)) in
      (fst (serve r g) :: codes, g')
  end.

(** The startup part of [lifespan]: the service is built. *)
Definition startup : option RAGService := Some __init__.

(** The codes each route can answer once the service is built. *)
Definition allowed (r : request) : list Z :=
  match r with
  | POST_process_video _ _ => [200; 400; 422]
  | POST_chat _ _ _ => [200; 400; 422; 500]
  | GET_status | GET_health | GET_root => [200]
  end.

(** The id of the current video, when there is one, has 11 characters. *)
Definition id_of_eleven (s : RAGService) : Prop :=
  match get_current_video_id s with
  | Some video_id => len video_id = 11
  | None => True
  end.

End server.

(* ===================================================================== *)
(** * Properties *)
(* ===================================================================== *)

(** ** Strings *)

Section Strings.

Lemma append_nil_r (s : string) : (s ++ "")%string = s.
Proof. induction s as [|c s IH]; simpl; [reflexivity | now rewrite IH]. Qed.

Lemma append_assoc (a b c : string) :
  ((a ++ b) ++ c)%string = (a ++ b ++ c)%string.
Proof. induction a as [|x a IH]; simpl; [reflexivity | now rewrite IH]. Qed.

Lemma length_append (a b : string) :
  String.length (a ++ b) = (String.length a + String.length b)%nat.
Proof. induction a as [|x a IH]; simpl; [reflexivity | now rewrite IH]. Qed.

(** [join] unfolds on a list with at least two elements. *)
Lemma join_cons (sep p : string) (rest : list string) :
  rest <> [] -> join sep (p :: rest) = (p ++ sep ++ join sep rest)%string.
Proof. destruct rest; [congruence | reflexivity]. Qed.

Lemma fold_spaced (rest : list string) (acc : string) :
  fold_left (fun a u => (a ++ " " ++ u)%string) rest acc
  = join " " (acc :: rest).
Proof.
  revert acc; induction rest as [|u rest IH]; intro acc.
  - reflexivity.
  - cbn [fold_left]. rewrite IH.
    destruct rest as [|v rest].
    + reflexivity.
    + rewrite (join_cons " " (acc ++ " " ++ u)) by discriminate.
      rewrite (join_cons " " acc) by discriminate.
      rewrite (join_cons " " u) by discriminate.
      now rewrite !append_assoc.
Qed.

(** [" ".join] is the concatenation the specification describes. *)
Lemma join_spaced_concat (texts : list string) :
  join " " texts = spaced_concat texts.
Proof.
  destruct texts as [|t rest]; [reflexivity|].
  unfold spaced_concat. now rewrite fold_spaced.
Qed.

End Strings.

(** ** The text splitter on short texts *)

Section ShortTexts.

Lemma join_empty (parts : list string) : join "" parts = concat parts.
Proof.
  induction parts as [|p rest IH]; [reflexivity|].
  destruct rest as [|q rest].
  - cbn. now rewrite append_nil_r.
  - rewrite join_cons by discriminate. rewrite IH. reflexivity.
Qed.

Lemma concat_app (l1 l2 : list string) :
  concat (l1 ++ l2) = (concat l1 ++ concat l2)%string.
Proof.
  induction l1 as [|p l1 IH]; cbn; [reflexivity|].
  unfold concat in IH. now rewrite IH, append_assoc.
Qed.

Lemma concat_filter (l : list string) :
  concat (filter (fun s => negb (String.eqb s "")) l) = concat l.
Proof.
  induction l as [|p l IH]; [reflexivity|]. cbn [filter].
  destruct (String.eqb_spec p "") as [->|Hp]; cbn [negb].
  - exact IH.
  - unfold concat in *. cbn. now rewrite IH.
Qed.

Lemma prefix_drop (a b : string) :
  String.prefix a b = true -> b = (a ++ drop (String.length a) b)%string.
Proof.
  revert b; induction a as [|x a IH]; intros b H.
  - reflexivity.
  - destruct b as [|y b]; [discriminate|]. cbn in H.
    destruct (ascii_dec x y) as [->|]; [|discriminate].
    cbn. now rewrite <- (IH b H).
Qed.

Lemma re_split_from_cons (sep text : string) (skip : nat) :
  re_split_from sep text skip <> [].
Proof.
  revert skip; induction text as [|c t IH]; intros skip; [discriminate|].
  cbn [re_split_from]. destruct skip as [|k]; [|apply IH].
  destruct (String.prefix sep (String c t)); [discriminate|].
  destruct (re_split_from sep t 0); discriminate.
Qed.

(** Joining the pieces of a split with the separator gives the text back
    (from the point where the split started). *)
Lemma re_split_from_join (sep text : string) (skip : nat) :
  sep <> EmptyString ->
  join sep (re_split_from sep text skip) = drop skip text.
Proof.
  intro Hsep. revert skip; induction text as [|c t IH]; intros skip.
  - now destruct skip.
  - cbn [re_split_from]. destruct skip as [|k]; [|apply IH].
    destruct (String.prefix sep (String c t)) eqn:Hp.
    + rewrite join_cons by apply re_split_from_cons.
      rewrite IH. destruct sep as [|a sep']; [congruence|].
      apply prefix_drop in Hp. cbn in Hp |- *. rewrite Nat.sub_0_r.
      now symmetry.
    + specialize (IH 0%nat). cbn [drop] in IH |- *.
      destruct (re_split_from sep t 0) as [|p ps] eqn:E.
      * now destruct (re_split_from_cons sep t 0).
      * destruct ps as [|p' ps]; cbn in IH |- *; now rewrite IH.
Qed.

Lemma pair_up_interleave (sep p0 : string) (rest : list string) :
  hd "" (interleave sep (p0 :: rest)) = p0
  /\ pair_up (tl (interleave sep (p0 :: rest))) = map (append sep) rest.
Proof.
  revert p0; induction rest as [|p1 rest IH]; intro p0; [now split|].
  destruct (IH p1) as [Hh Ht]. split; [reflexivity|].
  change (interleave sep (p0 :: p1 :: rest))
    with (p0 :: sep :: interleave sep (p1 :: rest)).
  cbn [tl]. destruct (interleave sep (p1 :: rest)) as [|h tl0] eqn:E.
  - now destruct rest.
  - cbn [pair_up hd tl] in *. subst h. now rewrite Ht.
Qed.

Lemma concat_map_sep (sep p0 : string) (rest : list string) :
  concat (p0 :: map (append sep) rest) = join sep (p0 :: rest).
Proof.
  revert p0; induction rest as [|p1 rest IH]; intro p0.
  - cbn. now rewrite append_nil_r.
  - rewrite join_cons by discriminate. rewrite <- IH. cbn.
    now rewrite append_assoc.
Qed.

(** Whatever the separator, the splits of a text concatenate to it. *)
Lemma split_text_with_regex_concat (text separator : string) :
  concat (_split_text_with_regex text separator true) = text.
Proof.
  unfold _split_text_with_regex. rewrite concat_filter.
  destruct (String.eqb_spec separator "") as [->|Hsep].
  - induction text as [|c t IH]; [reflexivity|].
    cbn. unfold concat in IH. now rewrite IH.
  - unfold re_split_capture.
    destruct (re_split separator text) as [|p0 rest] eqn:E.
    + now destruct (re_split_from_cons separator text 0).
    + destruct (pair_up_interleave separator p0 rest) as [-> ->].
      rewrite concat_map_sep, <- E.
      exact (re_split_from_join separator text 0 Hsep).
Qed.

Lemma concat_In_length (l : list string) (x : string) :
  In x l -> (String.length x <= String.length (concat l))%nat.
Proof.
  induction l as [|p l IH]; [intros []|].
  cbn. rewrite length_append. intros [->|H]; [lia|].
  specialize (IH H). unfold concat in IH. lia.
Qed.

Variable self : RecursiveCharacterTextSplitter.
Hypothesis keeps : _keep_separator self = true.
Hypothesis strips : _strip_whitespace self = true.

(** Merging pieces that fit in one chunk together: one document, the
    pieces joined and stripped, or none when nothing is left. *)
Lemma merge_loop_fits (splits docs current_doc : list string) (total : Z) :
  total = len (concat current_doc) ->
  total + len (concat splits) <= _chunk_size self ->
  merge_loop self "" splits docs current_doc total
  = Ok (append_doc docs (_join_docs self (current_doc ++ splits) "")).
Proof.
  revert docs current_doc total.
  induction splits as [|d more IH]; intros docs current_doc total Ht Hfit.
  - cbn [merge_loop]. now rewrite app_nil_r.
  - cbn [merge_loop]. change (len "") with 0.
    assert (Hd : len (concat (d :: more)) = len d + len (concat more)).
    { unfold len, concat. cbn [fold_right]. rewrite length_append. lia. }
    assert (Hnn : 0 <= len (concat more)) by (unfold len; lia).
    replace (total + len d
             + (if (0 <? length current_doc)%nat then 0 else 0)) with
      (total + len d) by (destruct (0 <? length current_doc)%nat; lia).
    destruct (Z.gtb_spec (total + len d) (_chunk_size self)) as [Hgt|_];
      [lia|].
    cbn [andb rbind].
    replace (total + len d
             + (if (1 <? length (current_doc ++ [d]))%nat then 0 else 0)) with
      (total + len d)
      by (destruct (1 <? length (current_doc ++ [d]))%nat; lia).
    rewrite IH.
    + now rewrite <- app_assoc.
    + rewrite concat_app. unfold len in *. cbn.
      rewrite length_append, append_nil_r. lia.
    + lia.
Qed.

(** The loop of [_split_text] over pieces that are all shorter than the
    chunk size: everything goes to one merge at the end. *)
Lemma split_loop_short _separator recurse (splits final good : list string) :
  (forall x, In x splits -> len x < _chunk_size self) ->
  split_loop self _separator recurse splits final good
  = match good ++ splits with
    | [] => Ok final
    | _ => let* merged_text := _merge_splits self (good ++ splits) _separator in
           Ok (final ++ merged_text)
    end.
Proof.
  revert final good; induction splits as [|x more IH]; intros final good Hs.
  - cbn [split_loop]. rewrite app_nil_r. now destruct good.
  - cbn [split_loop].
    destruct (Z.ltb_spec (len x) (_chunk_size self)) as [_|Hge].
    + rewrite IH by (intros y Hy; apply Hs; now right).
      now rewrite <- app_assoc.
    + specialize (Hs x (or_introl eq_refl)). lia.
Qed.

(** A text shorter than the chunk size, split on any separator: one
    chunk, the stripped text, or none when that is empty. *)
Lemma split_with_short separator recurse (text : string) :
  len text < _chunk_size self ->
  split_with self separator recurse text
  = Ok (match strip text with
        | EmptyString => []
        | stripped => [stripped]
        end).
Proof.
  intro Hlen. unfold split_with. rewrite keeps.
  pose proof (split_text_with_regex_concat text separator) as Hc.
  set (splits := _split_text_with_regex text separator true) in *.
  rewrite split_loop_short.
  2:{ intros x Hx. apply concat_In_length in Hx. rewrite Hc in Hx.
      unfold len in *. lia. }
  cbn [app]. clearbody splits. destruct splits as [|x more].
  - cbn in Hc. now subst text.
  - unfold _merge_splits.
    rewrite merge_loop_fits; [|reflexivity|rewrite Hc; cbn; lia].
    cbn [app rbind append_doc]. unfold _join_docs.
    rewrite join_empty, Hc, strips.
    destruct (strip text) as [|c t]; reflexivity.
Qed.

Lemma _split_text_short (separators : list string) (text : string) :
  separators <> [] ->
  len text < _chunk_size self ->
  _split_text self text separators
  = Ok (match strip text with
        | EmptyString => []
        | stripped => [stripped]
        end).
Proof.
  intros Hne Hlen. induction separators as [|_s rest IH]; [congruence|].
  cbn [_split_text].
  destruct (String.eqb _s ""); [now apply split_with_short|].
  destruct (re_search _s text).
  - destruct rest; now apply split_with_short.
  - destruct rest as [|r rest]; [now apply split_with_short|].
    apply IH. discriminate.
Qed.

Lemma create_documents_short (text : string) :
  _separators self <> [] ->
  len text < _chunk_size self ->
  create_documents self [text]
  = Ok (match strip text with
        | EmptyString => []
        | stripped => [{| page_content := stripped; metadata := [] |}]
        end).
Proof.
  intros Hne Hlen. cbn [create_documents]. unfold split_text.
  rewrite (_split_text_short _ _ Hne Hlen). cbn [rbind].
  destruct (strip text); reflexivity.
Qed.

End ShortTexts.

(** ** The effect combinators *)

Lemma assigned_app (t1 t2 : list event) :
  assigned (t1 ++ t2) = assigned t1 ++ assigned t2.
Proof.
  induction t1 as [|ev t1 IH]; [reflexivity|].
  destruct ev; cbn; now rewrite ?IH.
Qed.

Section Effects.

Context {A B : Type}.

Lemma bind_ok (m : M A) (k : A -> M B) s a :
  value (m s) = Ok a ->
  bind m k s
  = {| value := value (k a (state (m s)));
       state := state (k a (state (m s)));
       trace := trace (m s) ++ trace (k a (state (m s))) |}.
Proof. intro H. unfold bind. now rewrite H. Qed.

Lemma bind_raise (m : M A) (k : A -> M B) s e :
  value (m s) = Raise e ->
  bind m k s
  = {| value := Raise e; state := state (m s); trace := trace (m s) |}.
Proof. intro H. unfold bind. now rewrite H. Qed.

Lemma try_ok (m : M A) (h : exn -> M A) s a :
  value (m s) = Ok a -> try_except m h s = m s.
Proof. intro H. unfold try_except. now rewrite H. Qed.

Lemma try_raise (m : M A) (h : exn -> M A) s e :
  value (m s) = Raise e ->
  try_except m h s
  = {| value := value (h e (state (m s)));
       state := state (h e (state (m s)));
       trace := trace (m s) ++ trace (h e (state (m s))) |}.
Proof. intro H. unfold try_except. now rewrite H. Qed.

Lemma stateless_ret (a : A) : stateless (ret a).
Proof. now intro. Qed.

Lemma stateless_raise (e : exn) : stateless (@raise A e).
Proof. now intro. Qed.

Lemma stateless_request (ev : event) (r : result A) :
  (forall s, ev <> Assign s) -> stateless (request ev r).
Proof.
  intros H s. split; [reflexivity|].
  destruct ev; cbn; try reflexivity. now destruct (H after).
Qed.

Lemma stateless_lift (r : result A) : stateless (lift r).
Proof. now intro. Qed.

Lemma stateless_bind (m : M A) (k : A -> M B) :
  stateless m -> (forall a, stateless (k a)) -> stateless (bind m k).
Proof.
  intros Hm Hk s. unfold bind. destruct (Hm s) as [Hs Ht].
  destruct (value (m s)) as [a|e] eqn:E; cbn.
  - destruct (Hk a (state (m s))) as [Hs' Ht'].
    rewrite assigned_app, Hs', Ht, Ht', Hs. now split.
  - now split.
Qed.

Lemma stateless_try (m : M A) (h : exn -> M A) :
  stateless m -> (forall e, stateless (h e)) -> stateless (try_except m h).
Proof.
  intros Hm Hh s. unfold try_except. destruct (Hm s) as [Hs Ht].
  destruct (value (m s)) as [a|e] eqn:E; cbn.
  - now split.
  - destruct (Hh e (state (m s))) as [Hs' Ht'].
    rewrite assigned_app, Hs', Ht, Ht', Hs. now split.
Qed.

End Effects.

Lemma stateless_get : stateless get.
Proof. now intro. Qed.

Create HintDb stateless.
#[local] Hint Resolve stateless_ret stateless_raise stateless_lift
  stateless_get : stateless.

(** Discharges [stateless] goals built from the combinators. *)
Ltac stateless_tac :=
  repeat first
    [ apply stateless_try; [|intro]
    | apply stateless_bind; [|intro]
    | solve [auto with stateless]
    | solve [apply stateless_request; discriminate]
    | match goal with
      | |- stateless (match ?x with _ => _ end) => destruct x
      end ].

(** ** The transcript fetcher *)

Section Fetcher.

Variable w : World.
Variable video_id : string.
Variable s : RAGService.

Lemma fetch_transcript_stateless : stateless (fetch_transcript w video_id).
Proof. unfold fetch_transcript. stateless_tac. Qed.

(** What [fetch_transcript] returns, by what the provider answered. *)
Lemma fetch_transcript_value :
  value (fetch_transcript w video_id s)
  = match ytt_fetch w video_id ["en"] with
    | Ok trans_list => Ok (join " " (map text (snippets trans_list)))
    | Raise (TranscriptsDisabled _) => Raise TranscriptUnavailable
    | Raise e => Raise (FetchFailed (str e))
    end.
Proof.
  unfold fetch_transcript, try_except, bind, request; cbn.
  destruct (ytt_fetch w video_id ["en"]) as [tr|e]; cbn; [reflexivity|].
  destruct e; reflexivity.
Qed.

(** The provider is asked once, whatever it answers. *)
Lemma fetch_transcript_trace :
  trace (fetch_transcript w video_id s) = [Fetch video_id ["en"]].
Proof.
  unfold fetch_transcript, try_except, bind, request; cbn.
  destruct (ytt_fetch w video_id ["en"]) as [tr|e]; cbn; [reflexivity|].
  destruct e; reflexivity.
Qed.

(** C8: when the transcription service returns the caption snippets of a
    video, [fetch_transcript] returns one string: the texts of all
    snippets, in the order returned, joined with single spaces. *)
Theorem fetch_transcript_joins_snippets (trans_list : FetchedTranscript) :
  ytt_fetch w video_id ["en"] = Ok trans_list ->
  value (fetch_transcript w video_id s)
  = Ok (spaced_concat (map text (snippets trans_list)))
  /\ join " " (map text (snippets trans_list))
     = spaced_concat (map text (snippets trans_list)).
Proof.
  intro H. rewrite fetch_transcript_value, H, join_spaced_concat. now split.
Qed.

(** C9: [fetch_transcript] raises the transcript-unavailable failure
    exactly when the provider reports captions disabled, and for every
    other provider failure the fetch-failed failure that carries the
    provider's message; the provider is asked once (no retry) and the
    failure is the outcome of the call. *)
Theorem fetch_transcript_failures :
  (value (fetch_transcript w video_id s) = Raise TranscriptUnavailable
   <-> exists m, ytt_fetch w video_id ["en"] = Raise (TranscriptsDisabled m))
  /\ (forall e, ytt_fetch w video_id ["en"] = Raise e ->
        (forall m, e <> TranscriptsDisabled m) ->
        value (fetch_transcript w video_id s) = Raise (FetchFailed (str e)))
  /\ (forall e, ytt_fetch w video_id ["en"] = Raise e ->
        is_ok (value (fetch_transcript w video_id s)) = false)
  /\ fetches (trace (fetch_transcript w video_id s)) = [Fetch video_id ["en"]]
  /\ state (fetch_transcript w video_id s) = s.
Proof.
  rewrite fetch_transcript_value, fetch_transcript_trace.
  repeat split.
  - destruct (ytt_fetch w video_id ["en"]) as [tr|e]; [discriminate|].
    destruct e; try (unfold FetchFailed, TranscriptUnavailable; discriminate).
    intros _. now eexists.
  - intros [m ->]. reflexivity.
  - intros e -> Hne. destruct e; try reflexivity. now destruct (Hne msg).
  - intros e ->. now destruct e.
  - apply fetch_transcript_stateless.
Qed.

End Fetcher.

(** ** The ingestion pipeline *)

Section Pipeline.

Variable w : World.

Lemma process_transcript_stateless (transcript_text : string) :
  stateless (process_transcript transcript_text).
Proof. unfold process_transcript. stateless_tac. Qed.

(** What [process_transcript] returns, by what the splitter returned. *)
Lemma process_transcript_value (transcript_text : string) s :
  value (process_transcript transcript_text s)
  = match create_documents (text_splitter s) [transcript_text] with
    | Ok chunks => Ok chunks
    | Raise e => Raise (Exception ("Failed to process transcript: " ++ str e))
    end.
Proof.
  unfold process_transcript, try_except, bind, lift, get, ret, raise.
  cbn -[create_documents].
  destruct (create_documents (text_splitter s) [transcript_text]); reflexivity.
Qed.

Lemma embed_documents_stateless (texts : list string) :
  stateless (embed_documents w texts).
Proof. destruct texts as [|t more]; unfold embed_documents; stateless_tac. Qed.

Lemma from_documents_stateless (documents : list Document) :
  stateless (from_documents w documents).
Proof.
  unfold from_documents. apply stateless_bind.
  - apply embed_documents_stateless.
  - intros [|v vs]; stateless_tac.
Qed.

(** [create_vector_store] when the index cannot be built: the failure is
    wrapped and nothing has been assigned. *)
Lemma create_vector_store_raise (chunks : list Document) s e :
  value (from_documents w chunks s) = Raise e ->
  value (create_vector_store w chunks s)
  = Raise (Exception ("Failed to create vector store: " ++ str e))
  /\ state (create_vector_store w chunks s) = s
  /\ assigned (trace (create_vector_store w chunks s)) = [].
Proof.
  intro H. destruct (from_documents_stateless chunks s) as [Hs Ht].
  unfold create_vector_store.
  erewrite try_raise by (erewrite bind_raise by exact H; reflexivity).
  erewrite bind_raise by exact H. cbn. rewrite app_nil_r. auto.
Qed.

(** [create_vector_store] when the index is built: three assignments, in
    this order: the index, the retriever over it, the chain over that. *)
Lemma create_vector_store_ok (chunks : list Document) s vs :
  value (from_documents w chunks s) = Ok vs ->
  value (create_vector_store w chunks s) = Ok tt
  /\ state (create_vector_store w chunks s) = stage3 vs s
  /\ assigned (trace (create_vector_store w chunks s))
     = [stage1 vs s; stage2 vs s; stage3 vs s].
Proof.
  intro H. destruct (from_documents_stateless chunks s) as [Hs Ht].
  unfold create_vector_store, try_except.
  rewrite (bind_ok _ _ _ _ H), Hs. cbn.
  rewrite assigned_app, Ht. auto.
Qed.

(** The three stages of an ingestion, without the state: the transcript,
    its chunks and the index built from them, or the failure of the first
    stage that failed. *)
Lemma process_video_cases (video_id : string) s :
  let o := process_video w video_id s in
  (exists e, value o = Raise e /\ state o = s /\ assigned (trace o) = [])
  \/ (exists transcript_text chunks vs,
        value (fetch_transcript w video_id s) = Ok transcript_text
        /\ value (process_transcript transcript_text s) = Ok chunks
        /\ value (from_documents w chunks s) = Ok vs
        /\ value o = Ok (success_dict video_id transcript_text chunks)
        /\ state o = stage4 vs video_id s
        /\ assigned (trace o)
           = [stage1 vs s; stage2 vs s; stage3 vs s; stage4 vs video_id s]).
Proof.
  cbv zeta. unfold process_video, try_except.
  destruct (fetch_transcript_stateless w video_id s) as [Fs Ft].
  destruct (value (fetch_transcript w video_id s)) as [transcript_text|e] eqn:Ef.
  2:{ left. exists e. rewrite (bind_raise _ _ _ _ Ef). cbn.
      rewrite assigned_app, Ft, Fs. auto. }
  rewrite (bind_ok _ _ _ _ Ef), Fs. cbn.
  destruct (process_transcript_stateless transcript_text s) as [Ps Pt].
  destruct (value (process_transcript transcript_text s)) as [chunks|e] eqn:Ep.
  2:{ left. exists e. rewrite (bind_raise _ _ _ _ Ep). cbn.
      rewrite !assigned_app, Ft, Pt, Ps. auto. }
  rewrite (bind_ok _ _ _ _ Ep), Ps. cbn.
  destruct (value (from_documents w chunks s)) as [vs|e] eqn:Ev.
  - destruct (create_vector_store_ok chunks s vs Ev) as (Cv & Cs & Ct).
    right. exists transcript_text, chunks, vs.
    rewrite (bind_ok _ _ _ _ Cv), Cs. cbn.
    rewrite !assigned_app, Ft, Pt, Ct. cbn.
    repeat split; try assumption; reflexivity.
  - destruct (create_vector_store_raise chunks s e Ev) as (Cv & Cs & Ct).
    left. eexists. rewrite (bind_raise _ _ _ _ Cv), Cs. cbn.
    rewrite !assigned_app, Ft, Pt, Ct. cbn.
    repeat split; try assumption; reflexivity.
Qed.

(** A failed ingestion leaves every attribute as it was. *)
Lemma process_video_raise (video_id : string) s e :
  value (process_video w video_id s) = Raise e ->
  state (process_video w video_id s) = s
  /\ assigned (trace (process_video w video_id s)) = [].
Proof.
  intro H. destruct (process_video_cases video_id s) as [(e' & _ & Hs & Ht)|R].
  - auto.
  - destruct R as (t & c & vs & _ & _ & _ & Hv & _). congruence.
Qed.

(** A successful ingestion ends with a chain and a current video. *)
Lemma process_video_ok (video_id : string) s r :
  value (process_video w video_id s) = Ok r ->
  exists vs,
    state (process_video w video_id s) = stage4 vs video_id s.
Proof.
  intro H. destruct (process_video_cases video_id s) as [(e' & Hv & _)|R].
  - congruence.
  - destruct R as (t & c & vs & _ & _ & _ & _ & Hs & _). now exists vs.
Qed.

(** C1: an ingestion that fails, at whichever step, leaves the session
    state as it was: [current_video_id] has the value it had and
    [is_ready] answers as before (no attribute has changed at all). *)
Theorem failed_ingestion_preserves_state (video_id : string) s e :
  value (process_video w video_id s) = Raise e ->
  current_video_id (state (process_video w video_id s)) = current_video_id s
  /\ is_ready (state (process_video w video_id s)) = is_ready s
  /\ state (process_video w video_id s) = s.
Proof.
  intro H. destruct (process_video_raise video_id s e H) as [Hs _].
  now rewrite Hs.
Qed.

(** C10: a successful ingestion returns a dict with the message
    "Video processed successfully", the video id it was called with, the
    number of chunks the splitter made of the fetched transcript, and,
    besides these, the length of that transcript under
    "transcript_length"; the handler of /process-video answers with the
    first three and the status "success". *)
Theorem process_video_result (video_id : string) s r :
  value (process_video w video_id s) = Ok r ->
  exists transcript_text chunks,
    value (fetch_transcript w video_id s) = Ok transcript_text
    /\ create_documents (text_splitter s) [transcript_text] = Ok chunks
    /\ r = [("message", VStr "Video processed successfully");
            ("video_id", VStr video_id);
            ("chunks_count", VInt (Z.of_nat (length chunks)));
            ("transcript_length", VInt (len transcript_text))]
    /\ getitem r "transcript_length" = Ok (VInt (len transcript_text))
    /\ fst (main.process_video w
              {| models.ProcessVideoRequest.video_id := video_id |} (Some s))
       = Ok {| models.ProcessVideoResponse.message :=
                 "Video processed successfully";
               models.ProcessVideoResponse.video_id := video_id;
               models.ProcessVideoResponse.chunks_count :=
                 Z.of_nat (length chunks);
               models.ProcessVideoResponse.status := "success" |}.
Proof.
  intro H. destruct (process_video_cases video_id s) as [(e' & Hv & _)|R].
  - congruence.
  - destruct R as (t & c & vs & Hf & Hp & _ & Hv & _).
    exists t, c. rewrite Hv in H. injection H as <-.
    split; [exact Hf|]. split.
    { rewrite process_transcript_value in Hp.
      destruct (create_documents (text_splitter s) [t]); congruence. }
    split; [reflexivity|]. split; [reflexivity|].
    unfold main.process_video. cbn [models.ProcessVideoRequest.video_id].
    rewrite Hv. reflexivity.
Qed.

End Pipeline.

(** ** The chunker at its boundaries *)

Section Chunker.

Variable s : RAGService.
Hypothesis configured : text_splitter s = text_splitter __init__.

(** C6, as the code has it: with the splitter of [__init__], the empty
    transcript gives no chunk and no error, and a transcript shorter than
    1000 characters gives at most one chunk: the transcript with leading
    and trailing whitespace stripped, when that is not empty (so the
    transcript itself when it neither starts nor ends with whitespace),
    and no chunk when the transcript is all whitespace. *)
Theorem chunker_boundary (transcript_text : string) :
  (String.length transcript_text < 1000)%nat ->
  value (process_transcript transcript_text s)
  = Ok (match strip transcript_text with
        | EmptyString => []
        | stripped => [{| page_content := stripped; metadata := [] |}]
        end)
  /\ value (process_transcript "" s) = Ok []
  /\ (transcript_text <> "" -> strip transcript_text = transcript_text ->
      value (process_transcript transcript_text s)
      = Ok [{| page_content := transcript_text; metadata := [] |}]).
Proof.
  intro Hlen.
  assert (H : forall t, (String.length t < 1000)%nat ->
                value (process_transcript t s)
                = Ok (match strip t with
                      | EmptyString => []
                      | stripped => [{| page_content := stripped;
                                        metadata := [] |}]
                      end)).
  { intros t Ht. rewrite process_transcript_value, configured.
    rewrite create_documents_short; try reflexivity; try discriminate.
    cbn [text_splitter __init__ _chunk_size]. unfold len. lia. }
  split; [now apply H|]. split.
  - rewrite H by (cbn; lia). reflexivity.
  - intros Hne Hs. rewrite (H _ Hlen), Hs.
    destruct transcript_text; [congruence | reflexivity].
Qed.

End Chunker.

(** ** Questions *)

Section Questions.

Variable w : World.

Lemma chain_invoke_stateless (c : RunnableSequence) (question : string) :
  stateless (chain_invoke w c question).
Proof.
  unfold chain_invoke, retriever_invoke, similarity_search. stateless_tac.
Qed.

Lemma ask_question_stateless (question : string) :
  stateless (ask_question w question).
Proof.
  unfold ask_question. apply stateless_try; [|intro; stateless_tac].
  apply stateless_bind; [stateless_tac|]. intros self.
  destruct (chain self); [|stateless_tac].
  apply stateless_bind; [apply chain_invoke_stateless | intro; stateless_tac].
Qed.

(** [ask_question] on a service without a chain. *)
Lemma ask_question_empty (question : string) s :
  chain s = None ->
  value (ask_question w question s) = Raise (AnswerFailed NoVideoYet).
Proof.
  intro H. unfold ask_question, try_except, bind, get, raise; cbn. now rewrite H.
Qed.

(** [ask_question] on a service with a chain: the chain is invoked; a
    result is passed on, a failure is wrapped. *)
Lemma ask_question_chain (question : string) s c :
  chain s = Some c ->
  value (ask_question w question s)
  = match value (chain_invoke w c question s) with
    | Ok answer => Ok answer
    | Raise e => Raise (AnswerFailed e)
    end.
Proof.
  intro H. unfold ask_question, try_except, bind, get, ret, raise; cbn.
  rewrite H. destruct (chain_invoke_stateless c question s) as [Hs _].
  destruct (value (chain_invoke w c question s)); reflexivity.
Qed.

(** Every failure of [ask_question] is a plain exception whose message
    starts with "Failed to answer question: ". *)
Lemma ask_question_raises (question : string) s e :
  value (ask_question w question s) = Raise e ->
  exists cause, e = AnswerFailed cause.
Proof.
  destruct (chain s) as [c|] eqn:Hc.
  - rewrite (ask_question_chain question s c Hc).
    destruct (value (chain_invoke w c question s)) as [a|e']; [discriminate|].
    intros [= <-]. now exists e'.
  - rewrite (ask_question_empty question s Hc). intros [= <-]. now eexists.
Qed.

End Questions.

(** ** Sessions and readiness *)

Section Readiness.

Lemma is_ready_stage4 vs video_id s : is_ready (stage4 vs video_id s) = true.
Proof. reflexivity. Qed.

(** One call: readiness is gained by a successful ingestion and by
    nothing else, and is never lost. *)
Lemma step_ready (o : op) s :
  is_ready (step o s) = is_ready s || succeeded o s.
Proof.
  destruct o as [w video_id|w question| |]; cbn [step succeeded].
  - destruct (value (process_video w video_id s)) as [r|e] eqn:E; cbn [is_ok].
    + destruct (process_video_ok w video_id s r E) as [vs ->].
      rewrite is_ready_stage4. now rewrite orb_true_r.
    + destruct (process_video_raise w video_id s e E) as [-> _].
      now rewrite orb_false_r.
  - destruct (ask_question_stateless w question s) as [-> _].
    now rewrite orb_false_r.
  - now rewrite orb_false_r.
  - now rewrite orb_false_r.
Qed.

Lemma run_ready (ops : list op) s :
  is_ready (run ops s) = is_ready s || ingested ops s.
Proof.
  revert s; induction ops as [|o ops IH]; intro s.
  - cbn. now rewrite orb_false_r.
  - change (run (o :: ops) s) with (run ops (step o s)).
    rewrite IH, step_ready. cbn [ingested]. now rewrite orb_assoc.
Qed.

(** C2: in every session that starts from a freshly initialised service,
    [is_ready] is true exactly when some ingestion of the session so far
    has succeeded; in particular it is false right after initialisation
    and stays false until the first successful ingestion. *)
Theorem ready_iff_ingested (ops : list op) :
  is_ready (run ops __init__) = ingested ops __init__
  /\ is_ready __init__ = false
  /\ (forall later, ingested ops __init__ = true ->
        is_ready (run (ops ++ later) __init__) = true).
Proof.
  split; [now rewrite run_ready|]. split; [reflexivity|].
  intros later H. unfold run. rewrite fold_left_app. fold (run ops __init__).
  fold (run later (run ops __init__)).
  now rewrite run_ready, run_ready, H.
Qed.

End Readiness.

(** ** The index and the answer chain *)

Section Index.

Variable w : World.

Lemma embed_documents_value (texts : list string) s :
  value (embed_documents w texts s) = embed_all w texts.
Proof.
  assert (H : batch_vectors w texts = embed_all w texts).
  { induction texts as [|t more IH]; [reflexivity|].
    cbn [batch_vectors embed_all]. now rewrite IH. }
  rewrite <- H. now destruct texts.
Qed.

Lemma from_documents_value (documents : list Document) s :
  value (from_documents w documents s) = build_index w documents.
Proof.
  unfold from_documents, build_index, bind.
  rewrite embed_documents_value.
  destruct (embed_all w (map page_content documents)) as [[|v vs]|e];
    reflexivity.
Qed.

Lemma embed_all_length (texts : list string) vs :
  embed_all w texts = Ok vs -> length vs = length texts.
Proof.
  revert vs; induction texts as [|t more IH]; intros vs; cbn.
  - now intros [= <-].
  - destruct (embed w t) as [v|e]; cbn; [|discriminate].
    destruct (embed_all w more) as [vs'|e]; cbn; [|discriminate].
    intros [= <-]. cbn. now rewrite (IH vs' eq_refl).
Qed.

Lemma map_snd_combine {X Y} (xs : list X) (ys : list Y) :
  length xs = length ys -> map snd (combine xs ys) = ys.
Proof.
  revert ys; induction xs as [|x xs IH]; intros [|y ys]; cbn;
    try discriminate; try reflexivity.
  intros [= H]. now rewrite IH.
Qed.

(** The documents of a built index are the documents it was built from,
    in their order, and there is at least one. *)
Lemma build_index_documents (documents : list Document) vs :
  build_index w documents = Ok vs ->
  map snd (entries vs) = documents /\ documents <> [].
Proof.
  unfold build_index.
  destruct (embed_all w (map page_content documents)) as [vectors|e] eqn:E;
    cbn; [|discriminate].
  apply embed_all_length in E. rewrite length_map in E.
  destruct vectors as [|v vectors]; [discriminate|].
  intros [= <-]. cbn [entries]. split.
  - exact (map_snd_combine (v :: vectors) documents E).
  - destruct documents; [discriminate E | discriminate].
Qed.

Lemma insert_entry_In q e x l :
  In x (insert_entry w q e l) <-> x = e \/ In x l.
Proof.
  induction l as [|y l IH]; cbn.
  - intuition congruence.
  - destruct (nearer w q (fst e) (fst y)); cbn; rewrite ?IH;
      intuition congruence.
Qed.

(** Ranking reorders the entries: it neither adds nor drops one. *)
Lemma ranked_In q x l : In x (ranked w q l) <-> In x l.
Proof.
  induction l as [|y l IH]; cbn; [tauto|].
  rewrite insert_entry_In, IH. intuition congruence.
Qed.

Lemma insert_entry_length q e l :
  length (insert_entry w q e l) = S (length l).
Proof.
  induction l as [|y l IH]; cbn; [reflexivity|].
  destruct (nearer w q (fst e) (fst y)); cbn; now rewrite ?IH.
Qed.

Lemma ranked_length q l : length (ranked w q l) = length l.
Proof.
  unfold ranked. induction l as [|y l IH]; cbn; [reflexivity|].
  now rewrite insert_entry_length, IH.
Qed.

Lemma In_firstn {X} (n : nat) (l : list X) x : In x (firstn n l) -> In x l.
Proof.
  intro H. rewrite <- (firstn_skipn n l). apply in_or_app. now left.
Qed.

(** The passages retrieved from an index are documents of that index, and
    there are two of them, or as many as the index holds. *)
Lemma nearest_two_spec q vs :
  (forall d, In d (nearest_two w q vs) -> In d (map snd (entries vs)))
  /\ length (nearest_two w q vs) = Nat.min 2 (length (entries vs)).
Proof.
  unfold nearest_two. split.
  - intros d Hd. apply in_map_iff in Hd as (x & <- & Hx).
    apply in_map. apply (ranked_In q). eapply In_firstn; eauto.
  - now rewrite length_map, length_firstn, ranked_length.
Qed.

(** Under a metric that compares any two vectors and is transitive, the
    ranking is ordered: each entry is at least as near to the query as
    every entry behind it. *)
Lemma ranked_sorted q l :
  (forall u v, nearer w q u v = true \/ nearer w q v u = true) ->
  (forall u v x, nearer w q u v = true -> nearer w q v x = true ->
                 nearer w q u x = true) ->
  forall a b rest tail,
    ranked w q l = rest ++ a :: tail -> In b tail ->
    nearer w q (fst a) (fst b) = true.
Proof.
  intros total trans.
  assert (ins : forall e sorted,
    (forall a b rest tail, sorted = rest ++ a :: tail -> In b tail ->
                           nearer w q (fst a) (fst b) = true) ->
    forall a b rest tail, insert_entry w q e sorted = rest ++ a :: tail ->
                          In b tail -> nearer w q (fst a) (fst b) = true).
  { intros e sorted; induction sorted as [|x xs IH]; intros Hs a b rest tail.
    - cbn. destruct rest as [|r rest]; cbn.
      + intros [= <- <-] [].
      + intros [= _ H]. now destruct rest.
    - cbn [insert_entry].
      destruct (nearer w q (fst e) (fst x)) eqn:Hex.
      + destruct rest as [|r rest]; cbn.
        * intros [= <- <-] [<-|Hb]; [exact Hex|].
          apply (trans _ (fst x)); [exact Hex|].
          now apply (Hs x b [] xs).
        * intros [= <- H] Hb. now apply (Hs a b rest tail).
      + destruct rest as [|r rest]; cbn.
        * intros [= <- <-] Hb.
          apply insert_entry_In in Hb as [->|Hb].
          -- destruct (total (fst x) (fst e)); congruence.
          -- now apply (Hs x b [] xs).
        * intros [= <- H] Hb.
          apply (IH (fun a b rest tail E => Hs a b (x :: rest) tail
                                               (f_equal (cons x) E))
                   a b rest tail H Hb). }
  induction l as [|y l IH]; cbn.
  - intros a b [|r rest] tail; discriminate.
  - now apply ins.
Qed.

Lemma join_blank_line (texts : list string) :
  join (LF ++ LF) texts = blank_line_concat texts.
Proof.
  induction texts as [|t rest IH]; [reflexivity|].
  destruct rest as [|u rest]; [reflexivity|].
  rewrite join_cons by discriminate. rewrite IH. reflexivity.
Qed.

(** Filling the template of [__init__] through [PromptTemplate.format]
    puts the two values in the place of the two fields. *)
Lemma format_filled_prompt (context question : string) :
  format (prompt __init__) [("context", context); ("question", question)]
  = Ok (filled_prompt context question).
Proof. reflexivity. Qed.

(** Invoking the chain over [vs]: the answer of the specification. *)
Lemma chain_invoke_value vs (question : string) s :
  value (chain_invoke w (new_chain vs __init__) question s)
  = chain_answer w vs question.
Proof.
  unfold chain_invoke, chain_answer, retriever_invoke, similarity_search.
  unfold bind, request, ret, lift; cbn -[format filled_prompt].
  destruct (embed w question) as [q|e]; cbn -[format filled_prompt];
    [|reflexivity].
  change (prompt __init__) with (prompt __init__).
  unfold format_docs. rewrite join_blank_line.
  change ({| template := template_text;
             input_variables := ["context"; "question"] |})
    with (prompt __init__).
  rewrite format_filled_prompt. cbn -[filled_prompt].
  unfold nearest_two.
  destruct (complete w _); reflexivity.
Qed.

End Index.

(** ** Well-formed states *)

Section WellFormed.

Lemma well_formed_init : well_formed __init__.
Proof. unfold well_formed. repeat split. now left. Qed.

Lemma new_chain_config vs s :
  well_formed s -> new_chain vs s = new_chain vs __init__.
Proof. intros (_ & Hl & _ & Hp & _). unfold new_chain. now rewrite Hl, Hp. Qed.

Lemma well_formed_stage4 vs video_id s :
  well_formed s -> well_formed (stage4 vs video_id s).
Proof.
  intros H. pose proof (new_chain_config vs s H) as Hc.
  destruct H as (He & Hl & Ht & Hp & _).
  unfold well_formed. cbn. repeat split; try assumption.
  right. exists vs. now rewrite <- Hc.
Qed.

Lemma well_formed_step (o : op) s : well_formed s -> well_formed (step o s).
Proof.
  intro H. destruct o as [w video_id|w question| |]; cbn [step]; try assumption.
  - destruct (value (process_video w video_id s)) as [r|e] eqn:E.
    + destruct (process_video_ok w video_id s r E) as [vs ->].
      now apply well_formed_stage4.
    + now destruct (process_video_raise w video_id s e E) as [-> _].
  - now destruct (ask_question_stateless w question s) as [-> _].
Qed.

Lemma well_formed_run (ops : list op) s :
  well_formed s -> well_formed (run ops s).
Proof.
  revert s; induction ops as [|o ops IH]; intros s H; [exact H|].
  change (run (o :: ops) s) with (run ops (step o s)).
  now apply IH, well_formed_step.
Qed.

(** A call that is not a successful ingestion changes nothing. *)
Lemma step_unchanged (o : op) s : succeeded o s = false -> step o s = s.
Proof.
  destruct o as [w video_id|w question| |]; cbn [step succeeded]; try reflexivity.
  - destruct (value (process_video w video_id s)) as [r|e] eqn:E;
      [discriminate|]. intros _.
    now destruct (process_video_raise w video_id s e E).
  - intros _. now destruct (ask_question_stateless w question s).
Qed.

Lemma run_unchanged (ops : list op) s : ingested ops s = false -> run ops s = s.
Proof.
  revert s; induction ops as [|o ops IH]; intros s; [reflexivity|].
  cbn [ingested]. intros H. apply orb_false_elim in H as [Ho Hr].
  change (run (o :: ops) s) with (run ops (step o s)).
  rewrite (step_unchanged o s Ho) in *. now apply IH.
Qed.

(** The answer of [ask_question] depends on the chain attribute only. *)
Lemma chain_invoke_state (w : World) c question s s' :
  value (chain_invoke w c question s) = value (chain_invoke w c question s').
Proof.
  unfold chain_invoke, retriever_invoke, similarity_search.
  unfold bind, request, ret, lift; cbn -[format].
  destruct (embed w question); cbn -[format]; [|reflexivity].
  destruct (format _ _); reflexivity.
Qed.

Lemma ask_question_reads_chain (w : World) question s s' :
  chain s = chain s' ->
  value (ask_question w question s) = value (ask_question w question s').
Proof.
  intro H. destruct (chain s') as [c|] eqn:E.
  - rewrite (ask_question_chain w question s c H).
    rewrite (ask_question_chain w question s' c E).
    now rewrite (chain_invoke_state w c question s s').
  - rewrite (ask_question_empty w question s H).
    now rewrite (ask_question_empty w question s' E).
Qed.

End WellFormed.

(** ** Re-ingestion and the assignments of an ingestion *)

Section Reingestion.

(** The stages of an ingestion do not read the attributes it assigns. *)
Lemma fetch_transcript_state (w : World) video_id s s' :
  value (fetch_transcript w video_id s) = value (fetch_transcript w video_id s').
Proof. now rewrite !fetch_transcript_value. Qed.

Lemma stage4_overwrites vsA vsB A B s :
  stage4 vsB B (stage4 vsA A s) = stage4 vsB B s.
Proof. reflexivity. Qed.

(** A successful ingestion, stage by stage. *)
Lemma process_video_success (w : World) video_id s r :
  value (process_video w video_id s) = Ok r ->
  exists transcript_text chunks vs,
    value (fetch_transcript w video_id s) = Ok transcript_text
    /\ create_documents (text_splitter s) [transcript_text] = Ok chunks
    /\ build_index w chunks = Ok vs
    /\ state (process_video w video_id s) = stage4 vs video_id s
    /\ assigned (trace (process_video w video_id s))
       = [stage1 vs s; stage2 vs s; stage3 vs s; stage4 vs video_id s].
Proof.
  intro H. destruct (process_video_cases w video_id s) as [(e' & Hv & _)|R].
  - congruence.
  - destruct R as (t & c & vs & Hf & Hp & Hb & _ & Hs & Ht).
    exists t, c, vs. rewrite from_documents_value in Hb.
    rewrite process_transcript_value in Hp.
    repeat split; try assumption.
    destruct (create_documents (text_splitter s) [t]); congruence.
Qed.

(** C3: after video A and then video B have been ingested, the service
    holds the index built from the chunks of B's transcript and the chain
    over it, exactly as if A had never been ingested; every later question
    is answered by that chain, so what it retrieves are chunks of B. *)
Theorem reingestion_replaces_index
    (wA wB : World) (A B : string) (s0 : RAGService) rA rB :
  well_formed s0 ->
  value (process_video wA A s0) = Ok rA ->
  value (process_video wB B (state (process_video wA A s0))) = Ok rB ->
  exists transcriptB chunksB vsB,
    value (fetch_transcript wB B s0) = Ok transcriptB
    /\ create_documents (text_splitter s0) [transcriptB] = Ok chunksB
    /\ build_index wB chunksB = Ok vsB
    /\ map snd (entries vsB) = chunksB
    /\ state (process_video wB B (state (process_video wA A s0)))
       = state (process_video wB B s0)
    /\ vector_store (state (process_video wB B s0)) = Some vsB
    /\ chain (state (process_video wB B s0)) = Some (new_chain vsB __init__)
    /\ vectorstore (context_retriever (new_chain vsB __init__)) = vsB
    /\ forall later w question,
         ingested later (state (process_video wB B s0)) = false ->
         value (ask_question w question
                  (run later (state (process_video wB B s0))))
         = match chain_answer w vsB question with
           | Ok answer => Ok answer
           | Raise e => Raise (AnswerFailed e)
           end
         /\ forall q d, In d (nearest_two w q vsB) -> In d chunksB.
Proof.
  intros Hwf HA HB.
  destruct (process_video_success wA A s0 rA HA) as (tA & cA & vsA & _ & _ & _ & SA & _).
  rewrite SA in HB |- *.
  destruct (process_video_success wB B _ rB HB) as (tB & cB & vsB & Hf & Hc & Hb & SB & _).
  rewrite (fetch_transcript_state wB B _ s0) in Hf.
  change (text_splitter (stage4 vsA A s0)) with (text_splitter s0) in Hc.
  assert (S0 : state (process_video wB B s0) = stage4 vsB B s0).
  { destruct (process_video_cases wB B s0) as [(e' & Hv & _)|R].
    - pose proof (process_video_cases wB B (stage4 vsA A s0)) as [(e2 & Hv2 & _)|R2];
        [congruence|].
      exfalso. revert Hv. unfold process_video, try_except.
      rewrite (bind_ok _ _ _ _ Hf).
      destruct (fetch_transcript_stateless wB B s0) as [-> _]. cbn.
      assert (Hp : value (process_transcript tB s0) = Ok cB)
        by (now rewrite process_transcript_value, Hc).
      rewrite (bind_ok _ _ _ _ Hp).
      destruct (process_transcript_stateless tB s0) as [-> _]. cbn.
      assert (Hv3 : value (from_documents wB cB s0) = Ok vsB)
        by (now rewrite from_documents_value).
      destruct (create_vector_store_ok wB cB s0 vsB Hv3) as (Cv & Cs & _).
      rewrite (bind_ok _ _ _ _ Cv). cbn. discriminate.
    - destruct R as (t & c & vs & Hf' & Hp' & Hb' & _ & Hs' & _).
      rewrite Hs'. rewrite Hf in Hf'. injection Hf' as <-.
      rewrite process_transcript_value, Hc in Hp'. injection Hp' as <-.
      rewrite from_documents_value, Hb in Hb'. injection Hb' as <-.
      reflexivity. }
  exists tB, cB, vsB.
  destruct (build_index_documents wB cB vsB Hb) as [Hd _].
  repeat split; try assumption.
  - now rewrite SB, S0, stage4_overwrites.
  - now rewrite S0.
  - rewrite S0. cbn. now rewrite (new_chain_config vsB s0 Hwf).
  - rewrite (run_unchanged later _ H), S0.
    erewrite ask_question_chain by reflexivity.
    now rewrite (new_chain_config vsB s0 Hwf), chain_invoke_value.
  - intros q d Hin. rewrite <- Hd. now apply (nearest_two_spec w q vsB).
Qed.

(** The chat handler reads the service through [is_ready] and
    [ask_question], hence through the chain and the readiness only. *)
Lemma chat_reads (w : World) (request : models.ChatRequest.t) s s' :
  is_ready s = is_ready s' -> chain s = chain s' ->
  fst (main.chat w request (Some s)) = fst (main.chat w request (Some s')).
Proof.
  intros Hr Hc. unfold main.chat. rewrite Hr.
  destruct (negb (is_ready s')); [reflexivity|].
  rewrite (ask_question_reads_chain w _ s s' Hc).
  destruct (value (ask_question w _ s')) as [a|e]; [reflexivity|].
  destruct e; reflexivity.
Qed.

(** C5, as the code has it: a successful ingestion writes the session
    state by four assignments in a row (the index, the retriever, the
    chain, the current video id), not by one; the chain is composed over
    the new retriever and index and is installed by its one assignment,
    and a question reads the chain (and, through the chat handler, the
    readiness) only, so in every state between the assignments a question
    is answered either as before the ingestion or as after it. *)
Theorem ingestion_assignments (w : World) (video_id : string) s r :
  value (process_video w video_id s) = Ok r ->
  exists vs,
    observable (process_video w video_id) s
    = [s; stage1 vs s; stage2 vs s; stage3 vs s; stage4 vs video_id s]
    /\ state (process_video w video_id s) = stage4 vs video_id s
    /\ chain (stage4 vs video_id s) = Some (new_chain vs s)
    /\ vectorstore (context_retriever (new_chain vs s)) = vs
    /\ forall mid, In mid (observable (process_video w video_id) s) ->
         (chain mid = chain s \/ chain mid = chain (stage4 vs video_id s))
         /\ (forall w' question,
               value (ask_question w' question mid)
               = value (ask_question w' question s)
               \/ value (ask_question w' question mid)
                  = value (ask_question w' question (stage4 vs video_id s)))
         /\ (forall w' request,
               fst (main.chat w' request (Some mid))
               = fst (main.chat w' request (Some s))
               \/ fst (main.chat w' request (Some mid))
                  = fst (main.chat w' request (Some (stage4 vs video_id s)))).
Proof.
  intro H.
  destruct (process_video_success w video_id s r H)
    as (t & c & vs & _ & _ & _ & Hs & Ht).
  exists vs. unfold observable. rewrite Ht.
  split; [reflexivity|]. split; [exact Hs|]. split; [reflexivity|].
  split; [reflexivity|].
  intros mid Hmid.
  assert (Hc : chain mid = chain s \/ chain mid = chain (stage4 vs video_id s))
    by (destruct Hmid as [<-|[<-|[<-|[<-|[<-|[]]]]]]; auto).
  split; [exact Hc|]. split.
  - intros w' question.
    destruct Hc as [Hc|Hc]; [left|right]; now apply ask_question_reads_chain.
  - intros w' request.
    destruct Hmid as [<-|[<-|[<-|[<-|[<-|[]]]]]].
    + now left.
    + left. now apply chat_reads.
    + left. now apply chat_reads.
    + destruct (current_video_id s) as [v|] eqn:Hv.
      * right. apply chat_reads; [|reflexivity].
        unfold is_ready. cbn. now rewrite Hv.
      * left. unfold main.chat.
        replace (is_ready (stage3 vs s)) with false
          by (unfold is_ready; cbn; now rewrite Hv).
        replace (is_ready s) with false
          by (unfold is_ready; rewrite Hv; now destruct (chain s)).
        reflexivity.
    + now right.
Qed.

End Reingestion.

(** ** Readiness at the chat handler *)

Section Chat.

Import models.

Variable w : World.
Variable request : ChatRequest.t.
Variable svc : RAGService.

(** C4, as the code has it: through the chat handler a question to a
    service that is not ready is answered with the 400 error [NotReady],
    and a failure of [ask_question] on a ready service with a 500 error;
    [ask_question] itself raises, on a service without a chain as for any
    failure of a ready one, a plain exception whose message starts with
    "Failed to answer question: ". *)
Theorem not_ready_reported_by_chat :
  (is_ready svc = false ->
     main.chat w request (Some svc) = (Raise NotReady, Some svc))
  /\ (is_ready svc = true ->
      forall e,
        value (ask_question w (ChatRequest.question request) svc) = Raise e ->
        fst (main.chat w request (Some svc))
        = Raise (HTTPException 500 ("Failed to process question: " ++ str e)))
  /\ (chain svc = None ->
      value (ask_question w (ChatRequest.question request) svc)
      = Raise (AnswerFailed NoVideoYet))
  /\ (forall e,
        value (ask_question w (ChatRequest.question request) svc) = Raise e ->
        exists cause, e = AnswerFailed cause).
Proof.
  repeat split.
  - intro H. unfold main.chat. now rewrite H.
  - intros H e He. unfold main.chat. rewrite H, He. cbn [negb].
    destruct (ask_question_raises w _ svc e He) as [cause ->]. reflexivity.
  - apply ask_question_empty.
  - apply ask_question_raises.
Qed.

End Chat.

(** ** The scenarios, run *)

Section Scenarios.

Import scenario.

(** Against C4 as stated: on the ready service of scenario 1, a failure
    of the generation service is raised by [ask_question] as the very
    exception it raises on a service that has processed no video. *)
Lemma ready_failure_equals_empty_failure :
  is_ready after_cats = true
  /\ is_ready __init__ = false
  /\ complete cats_generation_failing "any prompt" = Raise NoVideoYet
  /\ value (ask_question cats_generation_failing "what do cats do?" after_cats)
     = Raise (AnswerFailed NoVideoYet)
  /\ value (ask_question cats "what do cats do?" __init__)
     = Raise (AnswerFailed NoVideoYet).
Proof. repeat split; vm_compute; reflexivity. Qed.

(** Against C5 as stated: the re-ingestion of the scenario assigns four
    times; after the first assignment the index is the new one while the
    retriever, the chain and the video id are the old ones, and after the
    third the chain is the new one while the video id is the old one. *)
Lemma ingestion_assigns_four_times :
  is_ok (value (reingest after_cats)) = true
  /\ length (assigned (trace (reingest after_cats))) = 4%nat
  /\ (exists mid,
        nth_error (observable reingest after_cats) 1 = Some mid
        /\ vector_store mid = vector_store (state (reingest after_cats))
        /\ vector_store mid <> vector_store after_cats
        /\ retriever mid = retriever after_cats
        /\ chain mid = chain after_cats
        /\ current_video_id mid = Some "abc12345678")
  /\ (exists mid,
        nth_error (observable reingest after_cats) 3 = Some mid
        /\ chain mid = chain (state (reingest after_cats))
        /\ chain mid <> chain after_cats
        /\ current_video_id mid = Some "abc12345678"
        /\ current_video_id (state (reingest after_cats)) = Some "xyz12345678").
Proof.
  split; [reflexivity|]. split; [reflexivity|]. split.
  - eexists. split; [vm_compute; reflexivity|].
    repeat split; try (vm_compute; reflexivity).
    vm_compute. discriminate.
  - eexists. split; [vm_compute; reflexivity|].
    repeat split; try (vm_compute; reflexivity).
    vm_compute. discriminate.
Qed.

Lemma fetch_transcript_joins_snippets_witness :
  value (fetch_transcript cats "abc12345678" __init__)
  = Ok (spaced_concat (map text (snippets cats_transcript)))
  /\ join " " (map text (snippets cats_transcript))
     = spaced_concat (map text (snippets cats_transcript)).
Proof.
  apply (fetch_transcript_joins_snippets cats "abc12345678" __init__
           cats_transcript).
  reflexivity.
Defined.

Lemma failed_ingestion_preserves_state_witness :
  current_video_id
    (state (process_video cats_embedding_down "xyz12345678" after_cats))
  = current_video_id after_cats
  /\ is_ready (state (process_video cats_embedding_down "xyz12345678" after_cats))
     = is_ready after_cats
  /\ state (process_video cats_embedding_down "xyz12345678" after_cats)
     = after_cats.
Proof.
  apply (failed_ingestion_preserves_state cats_embedding_down "xyz12345678"
           after_cats
           (Exception "Failed to create vector store: Connection error.")).
  vm_compute. reflexivity.
Defined.

Lemma process_video_result_witness :
  exists transcript_text chunks,
    value (fetch_transcript cats "abc12345678" __init__) = Ok transcript_text
    /\ create_documents (text_splitter __init__) [transcript_text] = Ok chunks
    /\ success_dict "abc12345678" "cats are great pets cats purr"
         [{| page_content := "cats are great pets cats purr"; metadata := [] |}]
       = [("message", VStr "Video processed successfully");
          ("video_id", VStr "abc12345678");
          ("chunks_count", VInt (Z.of_nat (length chunks)));
          ("transcript_length", VInt (len transcript_text))]
    /\ getitem
         (success_dict "abc12345678" "cats are great pets cats purr"
            [{| page_content := "cats are great pets cats purr";
                metadata := [] |}])
         "transcript_length"
       = Ok (VInt (len transcript_text))
    /\ fst (main.process_video cats
              {| models.ProcessVideoRequest.video_id := "abc12345678" |}
              (Some __init__))
       = Ok {| models.ProcessVideoResponse.message :=
                 "Video processed successfully";
               models.ProcessVideoResponse.video_id := "abc12345678";
               models.ProcessVideoResponse.chunks_count :=
                 Z.of_nat (length chunks);
               models.ProcessVideoResponse.status := "success" |}.
Proof.
  apply (process_video_result cats "abc12345678" __init__).
  vm_compute. reflexivity.
Defined.

Lemma ingestion_assignments_witness :
  exists vs,
    observable reingest after_cats
    = [after_cats; stage1 vs after_cats; stage2 vs after_cats;
       stage3 vs after_cats; stage4 vs "xyz12345678" after_cats]
    /\ state (reingest after_cats) = stage4 vs "xyz12345678" after_cats
    /\ chain (stage4 vs "xyz12345678" after_cats)
       = Some (new_chain vs after_cats)
    /\ vectorstore (context_retriever (new_chain vs after_cats)) = vs
    /\ forall mid, In mid (observable reingest after_cats) ->
         (chain mid = chain after_cats
          \/ chain mid = chain (stage4 vs "xyz12345678" after_cats))
         /\ (forall w' question,
               value (ask_question w' question mid)
               = value (ask_question w' question after_cats)
               \/ value (ask_question w' question mid)
                  = value (ask_question w' question
                             (stage4 vs "xyz12345678" after_cats)))
         /\ (forall w' request,
               fst (main.chat w' request (Some mid))
               = fst (main.chat w' request (Some after_cats))
               \/ fst (main.chat w' request (Some mid))
                  = fst (main.chat w' request
                           (Some (stage4 vs "xyz12345678" after_cats)))).
Proof.
  apply (ingestion_assignments cats "xyz12345678" after_cats
           (success_dict "xyz12345678" "dogs bark dogs fetch sticks dogs"
              [{| page_content := "dogs bark dogs fetch sticks dogs";
                  metadata := [] |}])).
  vm_compute. reflexivity.
Defined.

(** Against C6 as stated: a transcript of ten characters that ends with
    a space gives one chunk that is not the transcript, and a transcript
    of one space gives no chunk. *)
Lemma short_transcript_is_stripped :
  (String.length "cats purr " < 1000)%nat
  /\ value (process_transcript "cats purr " __init__)
     = Ok [{| page_content := "cats purr"; metadata := [] |}]
  /\ String.eqb "cats purr" "cats purr " = false
  /\ String.eqb " " "" = false
  /\ value (process_transcript " " __init__) = Ok [].
Proof.
  split; [cbn; lia|]. repeat split; vm_compute; reflexivity.
Qed.

Lemma chunker_boundary_witness :
  value (process_transcript "cats are great pets cats purr" __init__)
  = Ok (match strip "cats are great pets cats purr" with
        | EmptyString => []
        | stripped => [{| page_content := stripped; metadata := [] |}]
        end)
  /\ value (process_transcript "" __init__) = Ok []
  /\ ("cats are great pets cats purr" <> "" ->
      strip "cats are great pets cats purr" = "cats are great pets cats purr" ->
      value (process_transcript "cats are great pets cats purr" __init__)
      = Ok [{| page_content := "cats are great pets cats purr";
               metadata := [] |}]).
Proof.
  apply (chunker_boundary __init__ eq_refl "cats are great pets cats purr").
  cbn. lia.
Defined.

Lemma reingestion_replaces_index_witness :
  exists transcriptB chunksB vsB,
    value (fetch_transcript cats "xyz12345678" __init__) = Ok transcriptB
    /\ create_documents (text_splitter __init__) [transcriptB] = Ok chunksB
    /\ build_index cats chunksB = Ok vsB
    /\ map snd (entries vsB) = chunksB
    /\ state (reingest after_cats) = state (reingest __init__)
    /\ vector_store (state (reingest __init__)) = Some vsB
    /\ chain (state (reingest __init__)) = Some (new_chain vsB __init__)
    /\ vectorstore (context_retriever (new_chain vsB __init__)) = vsB
    /\ forall later w question,
         ingested later (state (reingest __init__)) = false ->
         value (ask_question w question (run later (state (reingest __init__))))
         = match chain_answer w vsB question with
           | Ok answer => Ok answer
           | Raise e => Raise (AnswerFailed e)
           end
         /\ forall q d, In d (nearest_two w q vsB) -> In d chunksB.
Proof.
  apply (reingestion_replaces_index cats cats "abc12345678" "xyz12345678"
           __init__
           (success_dict "abc12345678" "cats are great pets cats purr"
              [{| page_content := "cats are great pets cats purr";
                  metadata := [] |}])
           (success_dict "xyz12345678" "dogs bark dogs fetch sticks dogs"
              [{| page_content := "dogs bark dogs fetch sticks dogs";
                  metadata := [] |}])
           well_formed_init).
  - vm_compute. reflexivity.
  - vm_compute. reflexivity.
Defined.

End Scenarios.

(* ===================================================================== *)
(** * Further properties *)
(* ===================================================================== *)

(** ** Whitespace *)

Section Whitespace.

Lemma lstrip_blank (x : string) : lstrip x = "" <-> blank x = true.
Proof.
  induction x as [|c t IH]; cbn; [tauto|].
  destruct (isspace c); cbn; [exact IH | split; discriminate].
Qed.

Lemma rstrip_blank (x : string) : blank (rstrip x) = blank x.
Proof.
  induction x as [|c t IH]; [reflexivity|]. cbn.
  destruct (rstrip t) as [|r rs] eqn:E.
  - cbn in IH. rewrite <- IH.
    destruct (isspace c) eqn:Hc; cbn; now rewrite ?Hc.
  - rewrite <- IH. reflexivity.
Qed.

(** Stripping leaves nothing exactly of the texts made of whitespace. *)
Lemma strip_blank (x : string) : strip x = "" <-> blank x = true.
Proof. unfold strip. now rewrite lstrip_blank, rstrip_blank. Qed.

Lemma blank_app (a b : string) : blank (a ++ b) = blank a && blank b.
Proof.
  induction a as [|c a IH]; [reflexivity|]. cbn.
  now rewrite IH, andb_assoc.
Qed.

Lemma blank_concat (l : list string) :
  blank (Py.concat l) = forallb blank l.
Proof.
  induction l as [|x l IH]; [reflexivity|].
  cbn. unfold Py.concat in IH. now rewrite blank_app, IH.
Qed.

Lemma length_lstrip (x : string) :
  (String.length (lstrip x) <= String.length x)%nat.
Proof.
  induction x as [|c t IH]; cbn; [lia|]. destruct (isspace c); cbn; lia.
Qed.

Lemma length_rstrip (x : string) :
  (String.length (rstrip x) <= String.length x)%nat.
Proof.
  induction x as [|c t IH]; cbn; [lia|].
  destruct (rstrip t); [destruct (isspace c)|]; cbn in *; lia.
Qed.

Lemma len_strip (x : string) : len (strip x) <= len x.
Proof.
  unfold len, strip. pose proof (length_lstrip (rstrip x)).
  pose proof (length_rstrip x). lia.
Qed.

End Whitespace.

(** ** The text splitter on every text *)

Section EveryText.

Variable self : RecursiveCharacterTextSplitter.
Hypothesis keeps : _keep_separator self = true.
Hypothesis strips : _strip_whitespace self = true.
Hypothesis overlap_nonneg : 0 <= _chunk_overlap self.
Hypothesis size_above_one : 1 < _chunk_size self.

Lemma len_nonneg (x : string) : 0 <= len x.
Proof. unfold len. lia. Qed.

Lemma len_concat_cons (d : string) (l : list string) :
  len (Py.concat (d :: l)) = len d + len (Py.concat l).
Proof. unfold len, Py.concat. cbn [fold_right]. rewrite length_append. lia. Qed.

Lemma len_concat_app (l1 l2 : list string) :
  len (Py.concat (l1 ++ l2)) = len (Py.concat l1) + len (Py.concat l2).
Proof. rewrite concat_app. unfold len. rewrite length_append. lia. Qed.

Lemma append_doc_flushed (docs current_doc : list string) :
  append_doc docs (_join_docs self current_doc "") = docs ++ flushed current_doc.
Proof.
  unfold _join_docs, flushed. rewrite join_empty, strips.
  destruct (blank (Py.concat current_doc)) eqn:B.
  - apply strip_blank in B. rewrite B. cbn. now rewrite app_nil_r.
  - destruct (String.eqb_spec (strip (Py.concat current_doc)) "") as [E|_];
      [|reflexivity].
    apply strip_blank in E. congruence.
Qed.

Lemma flushed_ok (current_doc : list string) :
  len (Py.concat current_doc) <= _chunk_size self ->
  Forall (chunk_ok self) (flushed current_doc).
Proof.
  intro H. unfold flushed.
  destruct (blank (Py.concat current_doc)) eqn:B; constructor; [|constructor].
  split.
  - intro E. apply strip_blank in E. congruence.
  - pose proof (len_strip (Py.concat current_doc)). lia.
Qed.

Lemma flushed_nil (current_doc : list string) :
  flushed current_doc = [] <-> forallb blank current_doc = true.
Proof.
  unfold flushed. rewrite <- blank_concat.
  destruct (blank (Py.concat current_doc)); split; congruence.
Qed.

(** The [while] loop of [_merge_splits] never indexes an empty list: it
    stops on a suffix of the pieces that is within the overlap and leaves
    room for the next piece. *)
Lemma pop_front_ok (_len : Z) (current_doc : list string) :
  exists dropped kept,
    current_doc = dropped ++ kept
    /\ pop_front self 0 _len current_doc (len (Py.concat current_doc))
       = Ok (kept, len (Py.concat kept))
    /\ (len (Py.concat kept) + _len <= _chunk_size self
        \/ len (Py.concat kept) <= 0).
Proof.
  induction current_doc as [|d0 rest IH].
  - exists [], []. split; [reflexivity|]. cbn [pop_front].
    unfold keep_popping. change (len (Py.concat [])) with 0.
    destruct (Z.gtb_spec 0 (_chunk_overlap self)); [lia|].
    rewrite andb_false_r. cbn. split; [reflexivity | lia].
  - cbn [pop_front].
    destruct (keep_popping self 0 _len (d0 :: rest)
                (len (Py.concat (d0 :: rest)))) eqn:K.
    + destruct IH as (dropped & kept & -> & Hp & Hk).
      exists (d0 :: dropped), kept. split; [reflexivity|].
      rewrite len_concat_cons.
      replace (len d0 + len (Py.concat (dropped ++ kept))
               - (len d0
                  + (if (1 <? length (d0 :: dropped ++ kept))%nat
                     then 0 else 0)))
        with (len (Py.concat (dropped ++ kept)))
        by (destruct (1 <? length (d0 :: dropped ++ kept))%nat; lia).
      now split.
    + exists [], (d0 :: rest). split; [reflexivity|]. split; [reflexivity|].
      unfold keep_popping in K. apply orb_false_elim in K as [_ K].
      cbn [length Nat.ltb Nat.leb] in K. rewrite Z.add_0_r in K.
      apply andb_false_elim in K as [K|K].
      * left. destruct (Z.gtb_spec (len (Py.concat (d0 :: rest)) + _len)
                          (_chunk_size self)); [discriminate | lia].
      * right. destruct (Z.gtb_spec (len (Py.concat (d0 :: rest))) 0);
          [discriminate | lia].
Qed.

Lemma forallb_blank_suffix (dropped kept : list string) :
  forallb blank (dropped ++ kept) = true -> forallb blank kept = true.
Proof. rewrite forallb_app. intro H. now apply andb_prop in H. Qed.

(** [_merge_splits], whatever the pieces: it returns, every document it
    adds is a proper chunk, and it adds none exactly when all the pieces
    are whitespace. *)
Lemma merge_loop_ok (splits docs current_doc : list string) :
  len (Py.concat current_doc) <= _chunk_size self ->
  (forall d, In d splits -> len d < _chunk_size self) ->
  exists new,
    merge_loop self "" splits docs current_doc (len (Py.concat current_doc))
    = Ok (docs ++ new)
    /\ Forall (chunk_ok self) new
    /\ (new = [] <-> forallb blank (current_doc ++ splits) = true).
Proof.
  revert docs current_doc.
  induction splits as [|d more IH]; intros docs current_doc Hfit Hshort.
  - exists (flushed current_doc). cbn [merge_loop].
    rewrite append_doc_flushed, app_nil_r.
    split; [reflexivity|]. split; [now apply flushed_ok | apply flushed_nil].
  - cbn [merge_loop]. change (len "") with 0.
    assert (Hd : len d < _chunk_size self) by (apply Hshort; now left).
    assert (Hmore : forall x, In x more -> len x < _chunk_size self)
      by (intros x Hx; apply Hshort; now right).
    pose proof (len_nonneg d) as Hd0.
    pose proof (len_nonneg (Py.concat current_doc)) as Hc0.
    replace (len (Py.concat current_doc) + len d
             + (if (0 <? length current_doc)%nat then 0 else 0))
      with (len (Py.concat current_doc) + len d)
      by (destruct (0 <? length current_doc)%nat; lia).
    destruct ((len (Py.concat current_doc) + len d >? _chunk_size self)
              && (0 <? length current_doc)%nat) eqn:C.
    + rewrite append_doc_flushed.
      destruct (pop_front_ok (len d) current_doc)
        as (dropped & kept & Hsplit & Hp & Hk).
      rewrite Hp. cbn [rbind fst snd].
      pose proof (len_nonneg (Py.concat kept)) as Hk0.
      replace (len (Py.concat kept) + len d
               + (if (1 <? length (kept ++ [d]))%nat then 0 else 0))
        with (len (Py.concat (kept ++ [d])))
        by (rewrite len_concat_app, len_concat_cons;
            change (len (Py.concat [])) with 0;
            destruct (1 <? length (kept ++ [d]))%nat; lia).
      destruct (IH (docs ++ flushed current_doc) (kept ++ [d])) as (new & Hm & Hok & Hnil).
      { rewrite len_concat_app, len_concat_cons.
        change (len (Py.concat [])) with 0. lia. }
      { exact Hmore. }
      exists (flushed current_doc ++ new). rewrite Hm, <- app_assoc.
      split; [reflexivity|]. split.
      * apply Forall_app. split; [now apply flushed_ok | exact Hok].
      * rewrite <- app_assoc in Hnil. cbn [app] in Hnil.
        split.
        -- intro E. apply app_eq_nil in E as [E1 E2].
           apply flushed_nil in E1. apply Hnil in E2.
           rewrite forallb_app in E2 |- *. apply andb_prop in E2 as [_ E2].
           now rewrite E1, E2.
        -- intro B. rewrite forallb_app in B. apply andb_prop in B as [B1 B2].
           assert (E1 : flushed current_doc = []) by now apply flushed_nil.
           assert (E2 : new = []).
           { apply Hnil. rewrite forallb_app, B2, andb_true_r.
             rewrite Hsplit in B1. now apply forallb_blank_suffix in B1. }
           now rewrite E1, E2.
    + cbn [rbind].
      replace (len (Py.concat current_doc) + len d
               + (if (1 <? length (current_doc ++ [d]))%nat then 0 else 0))
        with (len (Py.concat (current_doc ++ [d])))
        by (rewrite len_concat_app, len_concat_cons;
            change (len (Py.concat [])) with 0;
            destruct (1 <? length (current_doc ++ [d]))%nat; lia).
      destruct (IH docs (current_doc ++ [d])) as (new & Hm & Hok & Hnil).
      { rewrite len_concat_app, len_concat_cons.
        change (len (Py.concat [])) with 0.
        apply andb_false_elim in C as [C|C].
        - destruct (Z.gtb_spec (len (Py.concat current_doc) + len d)
                      (_chunk_size self)); [discriminate | lia].
        - destruct current_doc; [|discriminate C].
          change (len (Py.concat [])) with 0. lia. }
      { exact Hmore. }
      exists new. rewrite <- app_assoc in Hnil. now rewrite Hm.
Qed.

(** The result the lemmas on [_split_text] share: the call returns, with
    proper chunks, and with none exactly when the text is whitespace. *)
Lemma split_loop_ok recurse (splits final good : list string) :
  match recurse with
  | None => forall x, In x splits -> len x < _chunk_size self
  | Some f =>
      forall x, exists out,
        f x = Ok out /\ Forall (chunk_ok self) out
        /\ (out = [] <-> blank x = true)
  end ->
  (forall g, In g good -> len g < _chunk_size self) ->
  exists new,
    split_loop self "" recurse splits final good = Ok (final ++ new)
    /\ Forall (chunk_ok self) new
    /\ (new = [] <-> forallb blank (good ++ splits) = true).
Proof.
  intro Hrec. revert final good.
  assert (Hmerge : forall good, (forall g, In g good -> len g < _chunk_size self) ->
            exists new, match good with
                        | [] => Ok []
                        | _ => _merge_splits self good ""
                        end = Ok new
                        /\ Forall (chunk_ok self) new
                        /\ (new = [] <-> forallb blank good = true)).
  { intros good Hg. destruct good as [|g good'] eqn:E.
    - exists []. split; [reflexivity|]. split; [constructor|]. now split.
    - rewrite <- E in *. unfold _merge_splits.
      destruct (merge_loop_ok good [] []) as (new & Hm & Hok & Hnil).
      + change (len (Py.concat [])) with 0. lia.
      + exact Hg.
      + exists new. change (len (Py.concat [])) with 0 in Hm.
        cbn [app] in Hm, Hnil. rewrite Hm. auto. }
  induction splits as [|x more IH]; intros final good Hgood.
  - cbn [split_loop]. destruct (Hmerge good Hgood) as (new & Hm & Hok & Hnil).
    exists new. rewrite app_nil_r. split; [|now split].
    destruct good; [injection Hm as <-; now rewrite app_nil_r|].
    now rewrite Hm.
  - cbn [split_loop].
    assert (Hrec' : match recurse with
                    | None => forall y, In y more -> len y < _chunk_size self
                    | Some f =>
                        forall y, exists out,
                          f y = Ok out /\ Forall (chunk_ok self) out
                          /\ (out = [] <-> blank y = true)
                    end).
    { destruct recurse; [exact Hrec|]. intros y Hy. apply Hrec. now right. }
    destruct (Z.ltb_spec (len x) (_chunk_size self)) as [Hx|Hx].
    + destruct (IH Hrec' final (good ++ [x])) as (new & Hs & Hok & Hnil).
      { intros g Hg. apply in_app_or in Hg as [Hg|[<-|[]]]; auto. }
      exists new. rewrite <- app_assoc in Hnil. now rewrite Hs.
    + destruct (Hmerge good Hgood) as (n1 & Hm & Hok1 & Hnil1).
      assert (E1 : match good with
                   | [] => Ok final
                   | _ :: _ =>
                       let* merged_text := _merge_splits self good ""
                       in Ok (final ++ merged_text)
                   end = Ok (final ++ n1)).
      { destruct good; [injection Hm as <-; now rewrite app_nil_r|].
        now rewrite Hm. }
      rewrite E1. cbn [rbind].
      destruct recurse as [f|].
      * destruct (Hrec x) as (out & Hf & Hok2 & Hnil2).
        rewrite Hf. cbn [rbind].
        destruct (IH Hrec' ((final ++ n1) ++ out) [])
          as (new & Hs & Hok3 & Hnil3); [intros g []|].
        exists (n1 ++ out ++ new). rewrite Hs, <- !app_assoc.
        split; [reflexivity|]. split.
        -- repeat (apply Forall_app; split); assumption.
        -- cbn [app] in Hnil3. rewrite forallb_app. cbn [forallb].
           split.
           ++ intro E. apply app_eq_nil in E as [En1 E].
              apply app_eq_nil in E as [Eo En].
              apply Hnil1 in En1. apply Hnil2 in Eo. apply Hnil3 in En.
              now rewrite En1, Eo, En.
           ++ intro B. apply andb_prop in B as [B1 B].
              apply andb_prop in B as [B2 B3].
              apply Hnil1 in B1. apply Hnil2 in B2. apply Hnil3 in B3.
              now rewrite B1, B2, B3.
      * specialize (Hrec x (or_introl eq_refl)). lia.
Qed.

Lemma list_chars_short (text x : string) :
  In x (_split_text_with_regex text "" true) -> len x < _chunk_size self.
Proof.
  unfold _split_text_with_regex. cbn [String.eqb]. intro H.
  apply filter_In in H as [H _].
  assert (len x = 1); [|lia].
  induction text as [|c t IH]; [destruct H|].
  destruct H as [<-|H]; [reflexivity | now apply IH].
Qed.

Lemma split_with_ok separator recurse (text : string) :
  match recurse with
  | None =>
      forall x, In x (_split_text_with_regex text separator true) ->
                len x < _chunk_size self
  | Some f =>
      forall x, exists out,
        f x = Ok out /\ Forall (chunk_ok self) out
        /\ (out = [] <-> blank x = true)
  end ->
  exists out,
    split_with self separator recurse text = Ok out
    /\ Forall (chunk_ok self) out
    /\ (out = [] <-> blank text = true).
Proof.
  intro Hrec. unfold split_with. rewrite keeps.
  destruct (split_loop_ok recurse
              (_split_text_with_regex text separator true) [] [] Hrec)
    as (new & Hs & Hok & Hnil); [intros g []|].
  exists new. cbn [app] in Hs, Hnil. split; [exact Hs|]. split; [exact Hok|].
  now rewrite Hnil, <- blank_concat, split_text_with_regex_concat.
Qed.

(** [_split_text] with the empty separator among the separators: it
    returns for every text, each chunk is not empty and within the chunk
    size, and there is no chunk exactly when the text is whitespace. *)
Lemma _split_text_ok (separators : list string) :
  In "" separators ->
  forall text, exists out,
    _split_text self text separators = Ok out
    /\ Forall (chunk_ok self) out
    /\ (out = [] <-> blank text = true).
Proof.
  induction separators as [|_s rest IH]; intros Hin text; [destruct Hin|].
  cbn [_split_text].
  destruct (String.eqb_spec _s "") as [->|Hs].
  - apply split_with_ok. intros x. apply list_chars_short.
  - destruct Hin as [E|Hin]; [congruence|].
    specialize (IH Hin).
    destruct rest as [|r rest']; [destruct Hin|].
    destruct (re_search _s text).
    + apply split_with_ok. intro x. apply IH.
    + apply IH.
Qed.

Lemma create_documents_ok (text : string) :
  In "" (_separators self) ->
  exists chunks,
    create_documents self [text] = Ok chunks
    /\ Forall (fun d => chunk_ok self (page_content d) /\ metadata d = [])
         chunks
    /\ (chunks = [] <-> blank text = true).
Proof.
  intro Hin. destruct (_split_text_ok _ Hin text) as (out & Hs & Hok & Hnil).
  cbn [create_documents]. unfold split_text. rewrite Hs. cbn [rbind].
  eexists. split; [reflexivity|]. rewrite app_nil_r. split.
  - apply Forall_map. eapply Forall_impl; [|exact Hok]. now intros c Hc.
  - rewrite <- Hnil. split; [apply map_eq_nil | now intros ->].
Qed.

End EveryText.

(** ** The chunker on every transcript *)

Section ChunkerEveryTranscript.

Variable s : RAGService.
Hypothesis configured : text_splitter s = text_splitter __init__.

Lemma process_transcript_ok (transcript_text : string) :
  exists chunks,
    create_documents (text_splitter s) [transcript_text] = Ok chunks
    /\ value (process_transcript transcript_text s) = Ok chunks
    /\ Forall (fun d => chunk_ok (text_splitter __init__) (page_content d)
                        /\ metadata d = []) chunks
    /\ (chunks = [] <-> blank transcript_text = true).
Proof.
  destruct (create_documents_ok (text_splitter __init__)
              eq_refl eq_refl ltac:(cbn; lia) ltac:(cbn; lia)
              transcript_text)
    as (chunks & Hc & Hok & Hnil).
  { cbn. auto. }
  exists chunks. rewrite process_transcript_value, configured, Hc. auto.
Qed.

(** X1: with the splitter of [__init__], [process_transcript] returns
    normally for every transcript, and leaves the state alone: its
    "Failed to process transcript" failure is never raised. *)
Theorem process_transcript_never_fails (transcript_text : string) :
  is_ok (value (process_transcript transcript_text s)) = true
  /\ state (process_transcript transcript_text s) = s.
Proof.
  destruct (process_transcript_ok transcript_text) as (chunks & _ & -> & _).
  split; [reflexivity | apply process_transcript_stateless].
Qed.

(** X2: every chunk [process_transcript] makes, of a transcript of any
    length, is a non-empty text of at most 1000 characters with empty
    metadata. *)
Theorem chunks_within_size (transcript_text : string) chunks :
  value (process_transcript transcript_text s) = Ok chunks ->
  Forall (fun d => page_content d <> ""
                   /\ len (page_content d) <= 1000
                   /\ metadata d = []) chunks.
Proof.
  intro H.
  destruct (process_transcript_ok transcript_text) as (c & _ & Hv & Hok & _).
  rewrite Hv in H. injection H as ->.
  eapply Forall_impl; [|exact Hok].
  intros d [[Hne Hlen] Hm]. auto.
Qed.

(** X3: [process_transcript] makes no chunk at all exactly of the
    transcripts that consist of whitespace only (the empty one among
    them), however long they are. *)
Theorem no_chunk_iff_blank (transcript_text : string) :
  value (process_transcript transcript_text s) = Ok []
  <-> blank transcript_text = true.
Proof.
  destruct (process_transcript_ok transcript_text) as (c & _ & Hv & _ & Hnil).
  rewrite Hv, <- Hnil. split; [now intros [= ->] | now intros ->].
Qed.

End ChunkerEveryTranscript.

(** ** The outcome of an ingestion, in full *)

Section IngestionOutcome.

Variable w : World.

Lemma embed_documents_trace (texts : list string) s :
  trace (embed_documents w texts s) = sent texts.
Proof. now destruct texts. Qed.

Lemma from_documents_trace (documents : list Document) s :
  trace (from_documents w documents s)
  = sent (map page_content documents).
Proof.
  unfold from_documents, bind.
  rewrite embed_documents_trace.
  destruct (value (embed_documents w (map page_content documents) s))
    as [[|v vs]|e]; cbn; now rewrite ?app_nil_r.
Qed.

Lemma assigned_sent (texts : list string) : assigned (sent texts) = [].
Proof. now destruct texts. Qed.

Lemma process_transcript_trace (transcript_text : string) s :
  trace (process_transcript transcript_text s) = [].
Proof.
  unfold process_transcript, try_except, bind, lift, get, ret, raise.
  cbn -[create_documents].
  destruct (create_documents (text_splitter s) [transcript_text]); reflexivity.
Qed.

Lemma embed_all_ok (texts : list string) :
  is_ok (embed_all w texts) = forallb (fun t => is_ok (embed w t)) texts.
Proof.
  induction texts as [|t more IH]; [reflexivity|]. cbn.
  destruct (embed w t) as [v|e]; cbn; [|reflexivity].
  rewrite <- IH. now destruct (embed_all w more).
Qed.

Lemma embed_all_raise (texts : list string) e :
  embed_all w texts = Raise e -> exists t, In t texts /\ embed w t = Raise e.
Proof.
  induction texts as [|t more IH]; cbn; [discriminate|].
  destruct (embed w t) as [v|e'] eqn:E; cbn.
  - destruct (embed_all w more) as [vs|e'']; cbn; [discriminate|].
    intros [= <-]. destruct (IH eq_refl) as (t' & Hin & Ht). eauto.
  - intros [= <-]. eauto.
Qed.

Lemma forallb_map_comp {X Y} (f : Y -> bool) (g : X -> Y) (l : list X) :
  forallb f (map g l) = forallb (fun x => f (g x)) l.
Proof. induction l as [|x l IH]; cbn; [reflexivity | now rewrite IH]. Qed.

(** The index is built exactly when there is a chunk and the embedding
    service answers for every chunk. *)
Lemma build_index_ok (chunks : list Document) :
  is_ok (build_index w chunks)
  = negb (Nat.eqb (length chunks) 0) && all_embed w chunks.
Proof.
  unfold build_index, all_embed.
  pose proof (embed_all_ok (map page_content chunks)) as H.
  rewrite forallb_map_comp in H.
  destruct (embed_all w (map page_content chunks)) as [vectors|e] eqn:E;
    cbn in H |- *; rewrite <- H.
  - apply embed_all_length in E. rewrite length_map in E.
    destruct vectors, chunks; try discriminate E; reflexivity.
  - now rewrite andb_false_r.
Qed.

Lemma build_index_raise (chunks : list Document) e :
  build_index w chunks = Raise e ->
  (chunks = [] /\ e = NoVector)
  \/ (exists d, In d chunks /\ embed w (page_content d) = Raise e).
Proof.
  unfold build_index.
  destruct (embed_all w (map page_content chunks)) as [vectors|e'] eqn:E; cbn.
  - destruct vectors; [|discriminate]. intros [= <-]. left.
    apply embed_all_length in E. rewrite length_map in E.
    destruct chunks; [now split | discriminate E].
  - intros [= <-]. right.
    destruct (embed_all_raise _ _ E) as (t & Hin & Ht).
    apply in_map_iff in Hin as (d & <- & Hd). eauto.
Qed.

(** [create_vector_store], with its requests. *)
Lemma create_vector_store_trace (chunks : list Document) s :
  trace (create_vector_store w chunks s)
  = sent (map page_content chunks)
    ++ map Assign (assigned (trace (create_vector_store w chunks s))).
Proof.
  pose proof (from_documents_trace chunks s) as Ht.
  destruct (from_documents_stateless w chunks s) as [Hs Ha].
  destruct (value (from_documents w chunks s)) as [vs|e] eqn:Hv.
  - destruct (create_vector_store_ok w chunks s vs Hv) as (_ & _ & ->).
    unfold create_vector_store, try_except.
    rewrite (bind_ok _ _ _ _ Hv), Hs, Ht. reflexivity.
  - destruct (create_vector_store_raise w chunks s e Hv) as (_ & _ & ->).
    unfold create_vector_store.
    erewrite try_raise by (erewrite bind_raise by exact Hv; reflexivity).
    erewrite bind_raise by exact Hv. cbn. now rewrite Ht, !app_nil_r.
Qed.

(** The trace of an ingestion: the request for the transcript, then the
    requests for the vectors of the chunks, then the assignments. *)
Lemma process_video_trace (video_id : string) s :
  trace (process_video w video_id s)
  = Fetch video_id ["en"]
    :: match value (fetch_transcript w video_id s) with
       | Raise _ => []
       | Ok transcript_text =>
           match value (process_transcript transcript_text s) with
           | Raise _ => []
           | Ok chunks =>
               sent (map page_content chunks)
               ++ map Assign (assigned (trace (process_video w video_id s)))
           end
       end.
Proof.
  unfold process_video, try_except.
  destruct (fetch_transcript_stateless w video_id s) as [Fs _].
  pose proof (fetch_transcript_trace w video_id s) as Ft.
  destruct (value (fetch_transcript w video_id s)) as [t|e] eqn:Ef.
  2:{ rewrite (bind_raise _ _ _ _ Ef). cbn. now rewrite Ft. }
  rewrite (bind_ok _ _ _ _ Ef), Fs. cbn. rewrite Ft.
  destruct (process_transcript_stateless t s) as [Ps _].
  pose proof (process_transcript_trace t s) as Pt.
  destruct (value (process_transcript t s)) as [chunks|e] eqn:Ep.
  2:{ rewrite (bind_raise _ _ _ _ Ep). cbn. now rewrite Pt. }
  rewrite (bind_ok _ _ _ _ Ep), Ps. cbn. rewrite Pt. cbn [app].
  pose proof (create_vector_store_trace chunks s) as Ct.
  destruct (value (from_documents w chunks s)) as [vs|e] eqn:Ev.
  - destruct (create_vector_store_ok w chunks s vs Ev) as (Cv & Cs & Ca).
    rewrite Ca in Ct.
    rewrite (bind_ok _ _ _ _ Cv), Cs. cbn. rewrite Ct. cbn.
    rewrite !assigned_app, assigned_sent. cbn.
    now rewrite <- app_assoc.
  - destruct (create_vector_store_raise w chunks s e Ev) as (Cv & Cs & Ca).
    rewrite Ca in Ct.
    rewrite (bind_raise _ _ _ _ Cv). cbn. rewrite Ct. cbn.
    rewrite !app_nil_r, assigned_sent. cbn. now rewrite app_nil_r.
Qed.

(** The value of an ingestion, stage by stage. *)
Lemma process_video_value (video_id : string) s :
  value (process_video w video_id s)
  = match value (fetch_transcript w video_id s) with
    | Raise e => Raise e
    | Ok transcript_text =>
        match value (process_transcript transcript_text s) with
        | Raise e => Raise e
        | Ok chunks =>
            match build_index w chunks with
            | Raise e => Raise (VectorStoreFailed e)
            | Ok _ => Ok (success_dict video_id transcript_text chunks)
            end
        end
    end.
Proof.
  destruct (process_video_cases w video_id s) as [(e & Hv & _)|R].
  - rewrite Hv. revert Hv. unfold process_video, try_except.
    destruct (fetch_transcript_stateless w video_id s) as [Fs _].
    destruct (value (fetch_transcript w video_id s)) as [t|e0] eqn:Ef.
    2:{ rewrite (bind_raise _ _ _ _ Ef). cbn. intro H; symmetry; exact H. }
    rewrite (bind_ok _ _ _ _ Ef), Fs. cbn.
    destruct (process_transcript_stateless t s) as [Ps _].
    destruct (value (process_transcript t s)) as [chunks|e0] eqn:Ep.
    2:{ rewrite (bind_raise _ _ _ _ Ep). cbn. intro H; symmetry; exact H. }
    rewrite (bind_ok _ _ _ _ Ep), Ps. cbn.
    rewrite <- (from_documents_value w chunks s).
    destruct (value (from_documents w chunks s)) as [vs|e0] eqn:Ev.
    + destruct (create_vector_store_ok w chunks s vs Ev) as (Cv & _).
      rewrite (bind_ok _ _ _ _ Cv). cbn. discriminate.
    + destruct (create_vector_store_raise w chunks s e0 Ev) as (Cv & _).
      rewrite (bind_raise _ _ _ _ Cv). cbn. intro H; symmetry; exact H.
  - destruct R as (t & c & vs & -> & -> & Hb & -> & _).
    rewrite from_documents_value in Hb. now rewrite Hb.
Qed.

End IngestionOutcome.

(** ** When an ingestion succeeds, and how it fails *)

Section IngestionCriterion.

Variable w : World.
Variable video_id : string.
Variable s : RAGService.
Hypothesis configured : text_splitter s = text_splitter __init__.

(** X4: an ingestion succeeds exactly when the provider returns the
    captions, their joined text has a character that is not whitespace,
    and the embedding service answers for every chunk of it. *)
Theorem ingestion_succeeds_iff :
  is_ok (value (process_video w video_id s)) = true
  <-> exists trans_list chunks,
        ytt_fetch w video_id ["en"] = Ok trans_list
        /\ create_documents (text_splitter s)
             [join " " (map text (snippets trans_list))] = Ok chunks
        /\ blank (join " " (map text (snippets trans_list))) = false
        /\ all_embed w chunks = true.
Proof.
  rewrite process_video_value, fetch_transcript_value.
  destruct (ytt_fetch w video_id ["en"]) as [tr|e] eqn:Ef.
  - destruct (process_transcript_ok s configured
                (join " " (map text (snippets tr))))
      as (chunks & Hc & Hv & _ & Hnil).
    rewrite Hv.
    assert (Hb : is_ok (build_index w chunks)
                 = negb (Nat.eqb (length chunks) 0) && all_embed w chunks)
      by apply build_index_ok.
    split.
    + intro H. exists tr, chunks. split; [reflexivity|]. split; [exact Hc|].
      destruct (build_index w chunks); [|discriminate H].
      symmetry in Hb. apply andb_prop in Hb as [Hlen Ha]. split; [|exact Ha].
      destruct (blank (join " " (map text (snippets tr)))); [|reflexivity].
      rewrite (proj2 Hnil eq_refl) in Hlen. discriminate Hlen.
    + intros (tr' & chunks' & [= <-] & Hc' & Hblank & Ha).
      rewrite Hc in Hc'. injection Hc' as <-.
      assert (Hne : negb (Nat.eqb (length chunks) 0) = true).
      { destruct chunks; [|reflexivity].
        rewrite (proj1 Hnil eq_refl) in Hblank. discriminate. }
      rewrite Hne, Ha in Hb. now destruct (build_index w chunks).
  - split.
    + destruct e; discriminate.
    + intros (tr & chunks & Hf & _). discriminate Hf.
Qed.

(** X5: every failure of an ingestion is one of four: captions disabled;
    another failure of the provider, with its message; a transcript of
    whitespace only, for which sizing the index fails; the failure of the
    embedding service on one of the chunks, with its message. *)
Theorem ingestion_failure_kinds (e : exn) :
  value (process_video w video_id s) = Raise e ->
  (e = TranscriptUnavailable
   /\ exists m, ytt_fetch w video_id ["en"] = Raise (TranscriptsDisabled m))
  \/ (exists cause,
        ytt_fetch w video_id ["en"] = Raise cause
        /\ e = FetchFailed (str cause))
  \/ (e = VectorStoreFailed NoVector
      /\ exists trans_list,
           ytt_fetch w video_id ["en"] = Ok trans_list
           /\ blank (join " " (map text (snippets trans_list))) = true)
  \/ (exists trans_list chunks d cause,
        ytt_fetch w video_id ["en"] = Ok trans_list
        /\ create_documents (text_splitter s)
             [join " " (map text (snippets trans_list))] = Ok chunks
        /\ In d chunks
        /\ embed w (page_content d) = Raise cause
        /\ e = VectorStoreFailed cause).
Proof.
  rewrite process_video_value, fetch_transcript_value.
  destruct (ytt_fetch w video_id ["en"]) as [tr|cause] eqn:Ef.
  - destruct (process_transcript_ok s configured
                (join " " (map text (snippets tr))))
      as (chunks & Hc & Hv & _ & Hnil).
    rewrite Hv.
    destruct (build_index w chunks) as [vs|e'] eqn:Hb; [discriminate|].
    intros [= <-].
    destruct (build_index_raise w chunks e' Hb) as [[-> ->]|(d & Hd & He)].
    + right. right. left. split; [reflexivity|].
      exists tr. split; [reflexivity | now apply Hnil].
    + right. right. right. exists tr, chunks, d, e'. auto.
  - destruct cause; intros [= <-];
      try (right; left; eexists; split; reflexivity).
    left. split; [reflexivity | now eexists].
Qed.

(** X6: a video whose captions hold no text (no snippet at all, or
    whitespace only) is not ingested: after the one request for the
    transcript, and without any request to the embedding service,
    [process_video] raises "Failed to create vector store: list index out
    of range" and leaves the state as it was. *)
Theorem blank_transcript_rejected (trans_list : FetchedTranscript) :
  ytt_fetch w video_id ["en"] = Ok trans_list ->
  blank (join " " (map text (snippets trans_list))) = true ->
  value (process_video w video_id s)
  = Raise (Exception "Failed to create vector store: list index out of range")
  /\ trace (process_video w video_id s) = [Fetch video_id ["en"]]
  /\ state (process_video w video_id s) = s.
Proof.
  intros Hf Hblank.
  destruct (process_transcript_ok s configured
              (join " " (map text (snippets trans_list))))
    as (chunks & Hc & Hv & _ & Hnil).
  apply Hnil in Hblank. subst chunks.
  assert (V : value (process_video w video_id s)
              = Raise (Exception
                         "Failed to create vector store: list index out of range")).
  { rewrite process_video_value, fetch_transcript_value, Hf, Hv. reflexivity. }
  destruct (process_video_raise w video_id s _ V) as [Hs Ha].
  split; [exact V|]. split; [|exact Hs].
  rewrite process_video_trace, Ha, fetch_transcript_value, Hf, Hv. reflexivity.
Qed.

End IngestionCriterion.

Section IngestionTrace.

Variable w : World.
Variable video_id : string.
Variable s : RAGService.

(** X7: a successful ingestion asks the provider for the transcript once,
    then the embedding service once, for the vectors of all the chunks in
    their order, and only then assigns, four times; nothing else
    happens. *)
Theorem successful_ingestion_trace r :
  value (process_video w video_id s) = Ok r ->
  exists transcript_text chunks vs,
    value (fetch_transcript w video_id s) = Ok transcript_text
    /\ create_documents (text_splitter s) [transcript_text] = Ok chunks
    /\ trace (process_video w video_id s)
       = [Fetch video_id ["en"];
          EmbedDocuments (map page_content chunks);
          Assign (stage1 vs s); Assign (stage2 vs s);
          Assign (stage3 vs s); Assign (stage4 vs video_id s)].
Proof.
  intro H.
  destruct (process_video_success w video_id s r H)
    as (t & chunks & vs & Hf & Hc & Hb & _ & Ha).
  exists t, chunks, vs. split; [exact Hf|]. split; [exact Hc|].
  rewrite process_video_trace, Hf, process_transcript_value, Hc, Ha.
  destruct (build_index_documents w chunks vs Hb) as [_ Hne].
  destruct chunks; [congruence | reflexivity].
Qed.

(** X8: a failed ingestion assigns nothing and stops at the failure:
    either it sent the request for the transcript only, or it sent that
    request and then the one request for the vectors of the chunks of the
    fetched transcript, and the embedding service failed on one of
    them. *)
Theorem failed_ingestion_trace e :
  value (process_video w video_id s) = Raise e ->
  assigned (trace (process_video w video_id s)) = []
  /\ (trace (process_video w video_id s) = [Fetch video_id ["en"]]
      \/ exists transcript_text chunks,
           value (fetch_transcript w video_id s) = Ok transcript_text
           /\ create_documents (text_splitter s) [transcript_text] = Ok chunks
           /\ all_embed w chunks = false
           /\ trace (process_video w video_id s)
              = [Fetch video_id ["en"];
                 EmbedDocuments (map page_content chunks)]).
Proof.
  intro H. destruct (process_video_raise w video_id s e H) as [_ Ha].
  split; [exact Ha|].
  rewrite process_video_trace, Ha.
  rewrite process_video_value in H.
  destruct (value (fetch_transcript w video_id s)) as [t|e1]; [|now left].
  rewrite process_transcript_value in *.
  destruct (create_documents (text_splitter s) [t]) as [chunks|e2] eqn:Hc;
    [|now left].
  destruct chunks as [|d chunks]; [now left|].
  right. exists t, (d :: chunks). split; [reflexivity|]. split; [exact Hc|].
  split; [|reflexivity].
  pose proof (build_index_ok w (d :: chunks)) as Hok.
  destruct (build_index w (d :: chunks)); [discriminate H|].
  cbn [is_ok length Nat.eqb negb andb] in Hok. now rewrite <- Hok.
Qed.

End IngestionTrace.

(** ** What every session keeps *)

Section SessionInvariants.

Lemma consistent_step (o : op) s :
  well_formed s -> consistent s -> consistent (step o s).
Proof.
  intros Hwf Hc.
  destruct (succeeded o s) eqn:Hs; [|now rewrite step_unchanged].
  destruct o as [w video_id| | |]; try discriminate Hs. cbn [step succeeded] in *.
  destruct (value (process_video w video_id s)) as [r|e] eqn:E; [|discriminate].
  destruct (process_video_success w video_id s r E)
    as (t & chunks & vs & _ & Hcd & Hb & -> & _).
  right. exists vs, video_id. cbn.
  rewrite (new_chain_config vs s Hwf).
  destruct (build_index_documents w chunks vs Hb) as [Hd Hne].
  repeat split.
  - intro En. rewrite En in Hd. cbn in Hd. congruence.
  - rewrite Hd.
    destruct Hwf as (_ & _ & Hts & _).
    destruct (process_transcript_ok s Hts t) as (c & Hc' & _ & Hok & _).
    rewrite Hcd in Hc'. injection Hc' as <-.
    eapply Forall_impl; [|exact Hok]. now intros d [Hd' _].
Qed.

Lemma consistent_run (ops : list op) s :
  well_formed s -> consistent s -> consistent (run ops s).
Proof.
  revert s; induction ops as [|o ops IH]; intros s Hwf Hc; [exact Hc|].
  change (run (o :: ops) s) with (run ops (step o s)).
  apply IH; [now apply well_formed_step | now apply consistent_step].
Qed.

Lemma consistent_init : consistent __init__.
Proof. left. repeat split. Qed.

(** X9: in every state a session reaches, the index, the retriever, the
    chain and the current video id are all unset or all set; when set,
    the retriever is bound to that very index and searches it by
    similarity with k = 2, the chain retrieves through that retriever
    and holds the prompt and the model of [__init__], and the index holds
    at least one chunk, each non-empty and of at most 1000 characters. *)
Theorem session_attributes_consistent (ops : list op) :
  coherent (run ops __init__).
Proof.
  destruct (consistent_run ops __init__ well_formed_init consistent_init)
    as [H|(vs & video_id & Hvs & Hr & Hc & Hid & Hne & Hok)];
    [left; exact H|].
  right. exists vs, (new_retriever vs), (new_chain vs __init__), video_id.
  split; [exact Hvs|]. split; [exact Hr|]. split; [exact Hc|].
  split; [exact Hid|].
  split; [reflexivity|]. split; [reflexivity|]. split; [reflexivity|].
  split; [reflexivity|]. split; [reflexivity|]. split; [reflexivity|].
  split; [exact Hne|].
  eapply Forall_impl; [|exact Hok]. intros d [Hd Hl]. split; assumption.
Qed.

Lemma last_ingested_run (ops : list op) s :
  current_video_id (run ops s) = last_ingested ops s (current_video_id s).
Proof.
  revert s; induction ops as [|o ops IH]; intro s; [reflexivity|].
  change (run (o :: ops) s) with (run ops (step o s)).
  cbn [last_ingested]. rewrite IH. f_equal.
  destruct (succeeded o s) eqn:Hs; [|now rewrite step_unchanged].
  destruct o as [w video_id| | |]; try discriminate Hs. cbn [step succeeded] in *.
  destruct (value (process_video w video_id s)) as [r|e] eqn:E; [|discriminate].
  destruct (process_video_ok w video_id s r E) as [vs ->]. reflexivity.
Qed.

(** X10: after any session, [get_current_video_id] returns the id of the
    last ingestion that succeeded, [None] when none has; failed
    ingestions and questions do not change it. *)
Theorem current_video_is_last_ingested (ops : list op) :
  get_current_video_id (run ops __init__) = last_ingested ops __init__ None.
Proof. unfold get_current_video_id. now rewrite last_ingested_run. Qed.

End SessionInvariants.

(** ** What a question costs *)

Section QuestionRequests.

Variable w : World.

Lemma ask_question_trace_chain vs (question : string) s :
  chain s = Some (new_chain vs __init__) ->
  trace (ask_question w question s)
  = Embed question
    :: match embed w question with
       | Ok q =>
           [Complete
              (filled_prompt
                 (blank_line_concat (map page_content (nearest_two w q vs)))
                 question)]
       | Raise _ => []
       end.
Proof.
  intro Hc. unfold ask_question, try_except, bind, get, ret, raise. cbn.
  rewrite Hc.
  unfold chain_invoke, retriever_invoke, similarity_search.
  unfold bind, request, ret, lift; cbn -[format filled_prompt].
  destruct (embed w question) as [q|e]; cbn -[format filled_prompt];
    [|reflexivity].
  change ({| template := template_text;
             input_variables := ["context"; "question"] |})
    with (prompt __init__).
  unfold format_docs. rewrite join_blank_line, format_filled_prompt.
  cbn -[filled_prompt]. unfold nearest_two.
  destruct (complete w _); reflexivity.
Qed.

(** X11: a question changes nothing in the service and costs at most two
    requests: none at all while no video has been ingested; otherwise one
    to the embedding service for the question and, when that one is
    answered, one to the generation service with the filled prompt.
    Nothing is asked twice. *)
Theorem ask_question_requests (ops : list op) (question : string) :
  state (ask_question w question (run ops __init__)) = run ops __init__
  /\ trace (ask_question w question (run ops __init__))
     = match chain (run ops __init__) with
       | None => []
       | Some c =>
           Embed question
           :: match embed w question with
              | Ok q =>
                  [Complete
                     (filled_prompt
                        (blank_line_concat
                           (map page_content
                              (nearest_two w q
                                 (vectorstore (context_retriever c)))))
                        question)]
              | Raise _ => []
              end
       end.
Proof.
  split; [apply ask_question_stateless|].
  destruct (well_formed_run ops __init__ well_formed_init)
    as (_ & _ & _ & _ & [Hc|[vs Hc]]).
  - rewrite Hc. unfold ask_question, try_except, bind, get, raise. cbn.
    now rewrite Hc.
  - rewrite Hc. now apply ask_question_trace_chain.
Qed.

End QuestionRequests.

(** ** Ingestion and history *)

Section History.

Lemma stage4_config vs video_id s :
  well_formed s -> stage4 vs video_id s = stage4 vs video_id __init__.
Proof.
  intros (He & Hl & Ht & Hp & _).
  unfold stage4, stage3, stage2, stage1, new_chain,
    set_current_video_id, set_chain, set_retriever, set_vector_store.
  cbn [embeddings llm text_splitter vector_store retriever chain
       current_video_id prompt].
  now rewrite He, Hl, Ht, Hp.
Qed.

Lemma process_video_value_config (w : World) video_id s s' :
  text_splitter s = text_splitter s' ->
  value (process_video w video_id s) = value (process_video w video_id s').
Proof.
  intro H. rewrite !process_video_value, !fetch_transcript_value.
  destruct (ytt_fetch w video_id ["en"]) as [tr|e]; [|now destruct e].
  now rewrite !process_transcript_value, H.
Qed.

Lemma process_video_state_config (w : World) video_id s s' r :
  well_formed s -> well_formed s' ->
  value (process_video w video_id s) = Ok r ->
  state (process_video w video_id s') = state (process_video w video_id s).
Proof.
  intros Hs Hs' H.
  assert (H' : value (process_video w video_id s') = Ok r).
  { rewrite <- H. apply process_video_value_config.
    destruct Hs as (_ & _ & -> & _), Hs' as (_ & _ & -> & _). reflexivity. }
  destruct (process_video_success w video_id s r H)
    as (t & c & vs & Hf & Hc & Hb & -> & _).
  destruct (process_video_success w video_id s' r H')
    as (t' & c' & vs' & Hf' & Hc' & Hb' & -> & _).
  rewrite (fetch_transcript_state w video_id s' s), Hf in Hf'.
  injection Hf' as <-.
  assert (Et : text_splitter s' = text_splitter s)
    by (destruct Hs as (_ & _ & -> & _), Hs' as (_ & _ & -> & _); reflexivity).
  rewrite Et, Hc in Hc'. injection Hc' as <-.
  rewrite Hb in Hb'. injection Hb' as <-.
  now rewrite (stage4_config vs video_id s Hs),
    (stage4_config vs video_id s' Hs').
Qed.

(** X12: a successful ingestion forgets the history of the service: from
    any two states that sessions reach it returns the same result and
    ends in the same state; in particular, ingesting a video twice in a
    row, the world answering the same, leaves the service as ingesting it
    once. *)
Theorem ingestion_forgets_history
    (w : World) (video_id : string) (before before' : list op) r :
  value (process_video w video_id (run before __init__)) = Ok r ->
  value (process_video w video_id (run before' __init__)) = Ok r
  /\ state (process_video w video_id (run before' __init__))
     = state (process_video w video_id (run before __init__))
  /\ state (process_video w video_id
              (state (process_video w video_id (run before __init__))))
     = state (process_video w video_id (run before __init__)).
Proof.
  intro H.
  pose proof (well_formed_run before __init__ well_formed_init) as Hs.
  pose proof (well_formed_run before' __init__ well_formed_init) as Hs'.
  split.
  - rewrite <- H. apply process_video_value_config.
    destruct Hs as (_ & _ & -> & _), Hs' as (_ & _ & -> & _). reflexivity.
  - split; [now apply (process_video_state_config w video_id _ _ r)|].
    apply (process_video_state_config w video_id _ _ r); try assumption.
    destruct (process_video_ok w video_id _ r H) as [vs ->].
    now apply well_formed_stage4.
Qed.

End History.

(** ** The ranking of the index *)

Section Ranking.

Variable w : World.
Variable q : EmbeddingVector.

Lemma insert_entry_perm e l : Permutation (insert_entry w q e l) (e :: l).
Proof.
  induction l as [|x l IH]; cbn; [reflexivity|].
  destruct (nearer w q (fst e) (fst x)); [reflexivity|].
  rewrite IH. apply perm_swap.
Qed.

Lemma ranked_perm l : Permutation (ranked w q l) l.
Proof.
  induction l as [|x l IH]; cbn; [reflexivity|].
  rewrite insert_entry_perm. now constructor.
Qed.

Lemma sorted_of_positions {X} (R : X -> X -> Prop) (l : list X) :
  (forall a b rest tail, l = rest ++ a :: tail -> In b tail -> R a b) ->
  StronglySorted R l.
Proof.
  induction l as [|x l IH]; intro H; constructor.
  - apply IH. intros a b rest tail E Hb.
    apply (H a b (x :: rest) tail); [now rewrite E | exact Hb].
  - apply Forall_forall. intros b Hb. now apply (H x b [] l).
Qed.

Hypothesis total : forall u v, nearer w q u v = true \/ nearer w q v u = true.
Hypothesis transitive :
  forall u v x, nearer w q u v = true -> nearer w q v x = true ->
                nearer w q u x = true.

(** X13: under a metric that compares any two vectors and is transitive,
    the ranking behind the retriever is a sort of the index by distance to
    the question: it holds the same entries, each at least as near as
    every entry behind it; so the passages retrieved (the first two) are
    at least as near as every passage left out. *)
Theorem ranking_sorts_index (vs : FAISS) :
  Permutation (ranked w q (entries vs)) (entries vs)
  /\ StronglySorted (fun a b => nearer w q (fst a) (fst b) = true)
       (ranked w q (entries vs))
  /\ Forall (fun near =>
               Forall (fun far => nearer w q (fst near) (fst far) = true)
                 (skipn 2 (ranked w q (entries vs))))
       (firstn 2 (ranked w q (entries vs))).
Proof.
  split; [apply ranked_perm|].
  assert (Hs : StronglySorted (fun a b => nearer w q (fst a) (fst b) = true)
                 (ranked w q (entries vs))).
  { apply sorted_of_positions. intros a b rest tail E Hb.
    exact (ranked_sorted w q (entries vs) total transitive a b rest tail E Hb). }
  split; [exact Hs|].
  rewrite <- (firstn_skipn 2 (ranked w q (entries vs))) in Hs.
  revert Hs. generalize (skipn 2 (ranked w q (entries vs))) as far.
  generalize (firstn 2 (ranked w q (entries vs))) as near.
  induction near as [|a near IH]; intros far Hs; [constructor|].
  cbn in Hs. apply StronglySorted_inv in Hs as [Hs Ha].
  constructor; [|now apply IH].
  apply Forall_app in Ha. tauto.
Qed.

End Ranking.

(** ** The handlers *)

Section Handlers.

Import models.

Variable w : World.

(** X14: the chat handler never changes the service, and answers in one
    of four ways: 503 while the service is not built; the 400 [NotReady]
    while it is not ready; the answer of [ask_question] with the status
    "success"; or a 500 whose detail starts with
    "Failed to process question: Failed to answer question: ". *)
Theorem chat_outcomes (request : ChatRequest.t) (g : option RAGService) :
  snd (main.chat w request g) = g
  /\ fst (main.chat w request g)
     = match g with
       | None => Raise (HTTPException 503 "RAG service is not available")
       | Some svc =>
           if is_ready svc then
             match value (ask_question w (ChatRequest.question request) svc)
             with
             | Ok answer =>
                 Ok {| ChatResponse.answer := answer;
                       ChatResponse.status := "success" |}
             | Raise e =>
                 Raise (HTTPException 500
                          ("Failed to process question: " ++ str e))
             end
           else Raise NotReady
       end
  /\ (forall e, fst (main.chat w request g) = Raise e ->
        e = HTTPException 503 "RAG service is not available"
        \/ e = NotReady
        \/ exists cause,
             e = HTTPException 500
                   ("Failed to process question: Failed to answer question: "
                    ++ cause)).
Proof.
  unfold main.chat. destruct g as [svc|]; cbn [fst snd].
  2:{ split; [reflexivity|]. split; [reflexivity|]. intros e [= <-]. now left. }
  destruct (is_ready svc); cbn [negb fst snd].
  2:{ split; [reflexivity|]. split; [reflexivity|].
      intros e [= <-]. right. now left. }
  destruct (ask_question_stateless w (ChatRequest.question request) svc)
    as [Hs _].
  destruct (value (ask_question w (ChatRequest.question request) svc))
    as [a|e] eqn:E.
  - cbn. rewrite Hs. split; [reflexivity|]. split; [reflexivity|].
    discriminate.
  - destruct (ask_question_raises w _ svc e E) as [cause ->].
    cbn. rewrite Hs. split; [reflexivity|]. split; [reflexivity|].
    intros e' [= <-]. right. right. exists (str cause). reflexivity.
Qed.

(** X15: the handler of /process-video answers every failure with a 400
    and the service unchanged: a failure of the service with its message
    as the detail, and a service that is not built with the detail
    "503: RAG service is not available" (its own 503 is caught and turned
    into the 400).  On success the service is ready for the video of the
    request and the response carries the status "success". *)
Theorem process_video_handler_outcomes
    (request : ProcessVideoRequest.t) (g : option RAGService) :
  match fst (main.process_video w request g) with
  | Raise e =>
      snd (main.process_video w request g) = g
      /\ match g with
         | None => e = HTTPException 400 "503: RAG service is not available"
         | Some svc =>
             exists cause,
               value (process_video w (ProcessVideoRequest.video_id request)
                        svc) = Raise cause
               /\ e = HTTPException 400 (str cause)
         end
  | Ok response =>
      ProcessVideoResponse.status response = "success"
      /\ ProcessVideoResponse.video_id response
         = ProcessVideoRequest.video_id request
      /\ exists svc',
           snd (main.process_video w request g) = Some svc'
           /\ is_ready svc' = true
           /\ get_current_video_id svc'
              = Some (ProcessVideoRequest.video_id request)
  end.
Proof.
  unfold main.process_video. destruct g as [svc|]; cbn [fst snd];
    [|split; reflexivity].
  destruct (value (process_video w (ProcessVideoRequest.video_id request) svc))
    as [r|e] eqn:E.
  - destruct (process_video_cases w (ProcessVideoRequest.video_id request) svc)
      as [(e' & Hv & _)|(t & c & vs & _ & _ & _ & Hv & Hs & _)];
      [congruence|].
    rewrite Hv in E. injection E as <-. cbn.
    split; [reflexivity|]. split; [reflexivity|].
    eexists. split; [reflexivity|]. rewrite Hs. now split.
  - cbn. destruct (process_video_raise w _ svc e E) as [-> _].
    split; [reflexivity|]. now exists e.
Qed.

(** X16: after any session, /status reports the service as initialised,
    with the id of the last successful ingestion and with readiness
    exactly when an ingestion has succeeded (so readiness and a video id
    are reported together), and /health reports it healthy; on a service
    that is not built, /status still answers and /health fails with the
    503 "Service is not healthy".  Neither changes the service. *)
Theorem status_after_session (ops : list op) :
  main.get_status (Some (run ops __init__))
  = (Ok {| main.service_status := "initialized";
           main.current_video_id := last_ingested ops __init__ None;
           main.ready_for_questions := ingested ops __init__ |},
     Some (run ops __init__))
  /\ (ingested ops __init__ = true
      <-> exists video_id, last_ingested ops __init__ None = Some video_id)
  /\ main.health_check (Some (run ops __init__))
     = (Ok {| HealthResponse.status := "healthy";
              HealthResponse.message := "All services are operational" |},
        Some (run ops __init__))
  /\ main.get_status None
     = (Ok {| main.service_status := "not_initialized";
              main.current_video_id := None;
              main.ready_for_questions := false |}, None)
  /\ main.health_check None
     = (Raise (HTTPException 503 "Service is not healthy"), None).
Proof.
  assert (Hr : is_ready (run ops __init__) = ingested ops __init__)
    by now rewrite run_ready.
  assert (Hv : get_current_video_id (run ops __init__)
               = last_ingested ops __init__ None)
    by (unfold get_current_video_id; now rewrite last_ingested_run).
  split; [unfold main.get_status; now rewrite Hr, Hv|].
  split; [|repeat split].
  rewrite <- Hr, <- Hv. unfold get_current_video_id.
  destruct (consistent_run ops __init__ well_formed_init consistent_init)
    as [H|H].
  - destruct H as (_ & _ & Hc & Hi). unfold is_ready. rewrite Hc, Hi.
    split; [discriminate | intros [v [=]]].
  - destruct H as (vs & v & _ & _ & Hc & Hi & _). unfold is_ready.
    rewrite Hc, Hi. split; [now exists v | reflexivity].
Qed.

End Handlers.

(** ** The further scenarios, run *)

Section FurtherScenarios.

Import scenario cases.

Lemma nearer_l2_total (q u v : EmbeddingVector) :
  nearer_l2 q u v = true \/ nearer_l2 q v u = true.
Proof.
  unfold nearer_l2. rewrite !Qle_bool_iff.
  destruct (Qlt_le_dec (l2 q u) (l2 q v)) as [H|H]; [left | right].
  - now apply Qlt_le_weak.
  - exact H.
Qed.

Lemma nearer_l2_transitive (q u v x : EmbeddingVector) :
  nearer_l2 q u v = true -> nearer_l2 q v x = true -> nearer_l2 q u x = true.
Proof. unfold nearer_l2. rewrite !Qle_bool_iff. apply Qle_trans. Qed.

Lemma process_transcript_never_fails_witness :
  is_ok (value (process_transcript long_transcript __init__)) = true
  /\ state (process_transcript long_transcript __init__) = __init__.
Proof.
  apply (process_transcript_never_fails __init__ eq_refl long_transcript).
Defined.

Lemma chunks_within_size_witness :
  Forall (fun d => page_content d <> ""
                   /\ len (page_content d) <= 1000
                   /\ metadata d = []) long_chunks.
Proof.
  apply (chunks_within_size __init__ eq_refl long_transcript long_chunks).
  vm_compute. reflexivity.
Defined.

Lemma no_chunk_iff_blank_witness :
  value (process_transcript "     " __init__) = Ok []
  <-> blank "     " = true.
Proof. apply (no_chunk_iff_blank __init__ eq_refl "     "). Defined.

Lemma ingestion_succeeds_iff_witness :
  is_ok (value (ingest_cats __init__)) = true
  <-> exists trans_list chunks,
        ytt_fetch cats "abc12345678" ["en"] = Ok trans_list
        /\ create_documents (text_splitter __init__)
             [join " " (map text (snippets trans_list))] = Ok chunks
        /\ blank (join " " (map text (snippets trans_list))) = false
        /\ all_embed cats chunks = true.
Proof. apply (ingestion_succeeds_iff cats "abc12345678" __init__ eq_refl). Defined.

Lemma ingestion_failure_kinds_witness :
  (Exception "Failed to create vector store: Rate limit reached"
   = TranscriptUnavailable
   /\ exists m, ytt_fetch picky "xyz12345678" ["en"]
                = Raise (TranscriptsDisabled m))
  \/ (exists cause,
        ytt_fetch picky "xyz12345678" ["en"] = Raise cause
        /\ Exception "Failed to create vector store: Rate limit reached"
           = FetchFailed (str cause))
  \/ (Exception "Failed to create vector store: Rate limit reached"
      = VectorStoreFailed NoVector
      /\ exists trans_list,
           ytt_fetch picky "xyz12345678" ["en"] = Ok trans_list
           /\ blank (join " " (map text (snippets trans_list))) = true)
  \/ (exists trans_list chunks d cause,
        ytt_fetch picky "xyz12345678" ["en"] = Ok trans_list
        /\ create_documents (text_splitter after_cats)
             [join " " (map text (snippets trans_list))] = Ok chunks
        /\ In d chunks
        /\ embed picky (page_content d) = Raise cause
        /\ Exception "Failed to create vector store: Rate limit reached"
           = VectorStoreFailed cause).
Proof.
  apply (ingestion_failure_kinds picky "xyz12345678" after_cats eq_refl).
  vm_compute. reflexivity.
Defined.

Lemma blank_transcript_rejected_witness :
  value (ingest_silent __init__)
  = Raise (Exception "Failed to create vector store: list index out of range")
  /\ trace (ingest_silent __init__) = [Fetch "abc12345678" ["en"]]
  /\ state (ingest_silent __init__) = __init__.
Proof.
  apply (blank_transcript_rejected silent "abc12345678" __init__ eq_refl
           {| snippets := map snippet [" "; ""; "  "] |});
    reflexivity.
Defined.

Lemma successful_ingestion_trace_witness :
  exists transcript_text chunks vs,
    value (fetch_transcript cats "abc12345678" __init__) = Ok transcript_text
    /\ create_documents (text_splitter __init__) [transcript_text] = Ok chunks
    /\ trace (ingest_cats __init__)
       = [Fetch "abc12345678" ["en"];
          EmbedDocuments (map page_content chunks);
          Assign (stage1 vs __init__); Assign (stage2 vs __init__);
          Assign (stage3 vs __init__);
          Assign (stage4 vs "abc12345678" __init__)].
Proof.
  apply (successful_ingestion_trace cats "abc12345678" __init__
           (success_dict "abc12345678" "cats are great pets cats purr"
              [passage "cats are great pets cats purr"])).
  vm_compute. reflexivity.
Defined.

Lemma failed_ingestion_trace_witness :
  assigned (trace (ingest_dogs_picky after_cats)) = []
  /\ (trace (ingest_dogs_picky after_cats) = [Fetch "xyz12345678" ["en"]]
      \/ exists transcript_text chunks,
           value (fetch_transcript picky "xyz12345678" after_cats)
           = Ok transcript_text
           /\ create_documents (text_splitter after_cats) [transcript_text]
              = Ok chunks
           /\ all_embed picky chunks = false
           /\ trace (ingest_dogs_picky after_cats)
              = [Fetch "xyz12345678" ["en"];
                 EmbedDocuments (map page_content chunks)]).
Proof.
  apply (failed_ingestion_trace picky "xyz12345678" after_cats
           (Exception "Failed to create vector store: Rate limit reached")).
  vm_compute. reflexivity.
Defined.

Lemma ingestion_forgets_history_witness :
  value (reingest (run busy_session __init__))
  = Ok (success_dict "xyz12345678" "dogs bark dogs fetch sticks dogs"
          [passage "dogs bark dogs fetch sticks dogs"])
  /\ state (reingest (run busy_session __init__))
     = state (reingest (run [ProcessVideo cats "abc12345678"] __init__))
  /\ state (reingest
              (state (reingest
                        (run [ProcessVideo cats "abc12345678"] __init__))))
     = state (reingest (run [ProcessVideo cats "abc12345678"] __init__)).
Proof.
  apply (ingestion_forgets_history cats "xyz12345678"
           [ProcessVideo cats "abc12345678"] busy_session).
  vm_compute. reflexivity.
Defined.

Lemma ranking_sorts_index_witness :
  Permutation (ranked cats a_question (entries three_passages))
    (entries three_passages)
  /\ StronglySorted (fun a b => nearer cats a_question (fst a) (fst b) = true)
       (ranked cats a_question (entries three_passages))
  /\ Forall (fun near =>
               Forall (fun far =>
                         nearer cats a_question (fst near) (fst far) = true)
                 (skipn 2 (ranked cats a_question (entries three_passages))))
       (firstn 2 (ranked cats a_question (entries three_passages))).
Proof.
  apply (ranking_sorts_index cats a_question
           (nearer_l2_total a_question) (nearer_l2_transitive a_question)
           three_passages).
Defined.

End FurtherScenarios.

(** ** The size of the prompt *)

Section PromptSize.

Lemma len_filled_prompt (context question : string) :
  len (filled_prompt context question)
  = len (filled_prompt "" "") + len context + len question.
Proof.
  unfold len, filled_prompt. rewrite !length_append.
  cbn [String.length LF indent]. lia.
Qed.

Lemma len_blank_line_concat (bound : Z) (texts : list string) :
  Forall (fun t => len t <= bound) texts ->
  len (blank_line_concat texts)
  <= Z.of_nat (length texts) * (bound + 2)
     - match texts with [] => 0 | _ => 2 end.
Proof.
  induction 1 as [|t rest Ht Hrest IH]; [cbn; lia|].
  pose proof (len_nonneg t).
  destruct rest as [|u rest]; [cbn [blank_line_concat length]; lia|].
  change (blank_line_concat (t :: u :: rest))
    with (t ++ LF ++ LF ++ blank_line_concat (u :: rest))%string.
  unfold len in *. rewrite !length_append.
  cbn [String.length LF]. cbn [length] in *. lia.
Qed.

(** X18: whatever has been ingested, the prompt sent to the generation
    service for a question is the fixed text of the template (285
    characters) with the question and with at most two chunks of at most
    1000 characters and the blank line between them: it is never longer
    than the question plus 2287 characters. *)
Theorem prompt_size_bounded (w : World) (ops : list op) (question : string) :
  Forall (fun ev =>
            match ev with
            | Complete prompt_text => len prompt_text <= len question + 2287
            | _ => True
            end)
    (trace (ask_question w question (run ops __init__))).
Proof.
  destruct (consistent_run ops __init__ well_formed_init consistent_init)
    as [H|H].
  - destruct H as (_ & _ & Hc & _).
    unfold ask_question, try_except, bind, get, raise. cbn. rewrite Hc.
    constructor.
  - destruct H as (vs & v & _ & _ & Hc & _ & _ & Hdocs).
    rewrite (ask_question_trace_chain w vs question _ Hc).
    constructor; [exact I|].
    destruct (embed w question) as [q|e]; [|constructor].
    constructor; [|constructor].
    rewrite len_filled_prompt.
    destruct (nearest_two_spec w q vs) as [Hin Hlen].
    assert (Hb : Forall (fun t => len t <= 1000)
                   (map page_content (nearest_two w q vs))).
    { apply Forall_map. apply Forall_forall. intros d Hd.
      apply Hin in Hd. rewrite Forall_forall in Hdocs.
      now destruct (Hdocs d Hd). }
    apply len_blank_line_concat in Hb. rewrite length_map, Hlen in Hb.
    change (len (filled_prompt "" "")) with 285.
    assert (Hm : 0 <= Z.of_nat (Nat.min 2 (length (entries vs))) <= 2) by lia.
    destruct (map page_content (nearest_two w q vs));
      [change (len (blank_line_concat [])) with 0; lia | nia].
Qed.

End PromptSize.

(** ** The application, request by request *)

Section Server.

Import models server.

Lemma serve_step (r : request) (s : RAGService) :
  id_of_eleven s ->
  exists s',
    snd (serve r (Some s)) = Some s'
    /\ id_of_eleven s'
    /\ In (fst (serve r (Some s))) (allowed r).
Proof.
  intro Hid.
  assert (same : forall (code : Z) (allowed_codes : list Z),
            In code allowed_codes ->
            exists s', snd (code, Some s) = Some s' /\ id_of_eleven s'
                       /\ In (fst (code, Some s)) allowed_codes)
    by (intros code l Hl; exists s; auto).
  destruct r as [w video_id|w question video_id| | |];
    cbn [serve allowed].
  - unfold ProcessVideoRequest_validate.
    destruct ((11 <=? len video_id) && (len video_id <=? 11)) eqn:V;
      [|apply same; cbn; auto].
    apply andb_prop in V as [V1 V2].
    unfold main.process_video. cbn [ProcessVideoRequest.video_id].
    destruct (process_video_cases w video_id s)
      as [(e & Hv & Hs & _)|(t & c & vs & _ & _ & _ & Hv & Hs & _)];
      rewrite Hv, Hs; cbn [main.build_response].
    + apply same. cbn. auto.
    + eexists. split; [reflexivity|]. split; [|cbn; auto].
      unfold id_of_eleven. cbn. lia.
  - unfold ChatRequest_validate.
    destruct (1 <=? len question); [|apply same; cbn; auto].
    unfold main.chat. cbn [ChatRequest.question].
    destruct (is_ready s); cbn [negb]; [|apply same; cbn; auto].
    destruct (ask_question_stateless w question s) as [Hs _].
    destruct (value (ask_question w question s)) as [a|e] eqn:E.
    + rewrite Hs. apply same. cbn. auto.
    + destruct (ask_question_raises w question s e E) as [cause ->].
      cbn [AnswerFailed]. rewrite Hs. apply same. cbn. auto 6.
  - apply same. cbn. auto.
  - apply same. cbn. auto.
  - apply same. cbn. auto.
Qed.

Lemma serve_all_steps (rs : list request) (s : RAGService) :
  id_of_eleven s ->
  exists s',
    snd (serve_all rs (Some s)) = Some s'
    /\ id_of_eleven s'
    /\ Forall2 (fun r code => In code (allowed r)) rs
         (fst (serve_all rs (Some s))).
Proof.
  revert s; induction rs as [|r rest IH]; intros s Hid.
  - exists s. cbn. auto.
  - destruct (serve_step r s Hid) as (s1 & E1 & Hid1 & Hc1).
    destruct (IH s1 Hid1) as (s' & E & Hid' & Hc).
    cbn [serve_all]. rewrite E1.
    destruct (serve_all rest (Some s1)) as [codes g'] eqn:R.
    cbn [fst snd] in *. exists s'. split; [exact E|]. split; [exact Hid'|].
    now constructor.
Qed.

(** X17: once the service is built, whatever a client sends, the
    application stays built and answers /process-video with 200, 400 or
    422 only, /chat with 200, 400, 422 or 500 only, and /status, /health
    and / with 200 (never a 503); and the id of the current video, when
    there is one, has exactly the 11 characters the request model
    demands. *)
Theorem server_codes_and_video_id (rs : list request) :
  Forall2 (fun r code => In code (allowed r)) rs
    (fst (serve_all rs startup))
  /\ exists s,
       snd (serve_all rs startup) = Some s
       /\ match get_current_video_id s with
          | Some video_id => String.length video_id = 11%nat
          | None => True
          end.
Proof.
  destruct (serve_all_steps rs __init__) as (s & E & Hid & Hc); [exact I|].
  split; [exact Hc|]. exists s. split; [exact E|].
  unfold id_of_eleven in Hid. destruct (get_current_video_id s); [|exact I].
  unfold len in Hid. lia.
Qed.

End Server.

(** ** C7: the answer chain *)

Section AnswerChain.

Variable w : World.

Lemma sorted_app_split {X} (R : X -> X -> Prop) (l1 l2 : list X) :
  StronglySorted R (l1 ++ l2) ->
  StronglySorted R l1 /\ Forall (fun a => Forall (R a) l2) l1.
Proof.
  induction l1 as [|a l1 IH]; cbn; intro H; [split; constructor|].
  apply StronglySorted_inv in H as [Hs Ha].
  apply Forall_app in Ha as [Ha1 Ha2].
  destruct (IH Hs) as [IH1 IH2].
  split; constructor; assumption.
Qed.

(** C7: in every ready state a session reaches, the retriever of the
    chain is bound to the index of the service, which is not empty, and
    searches it by similarity with k = 2, and the chain holds the prompt
    of [__init__].  When the question has no vector, [ask_question]
    fails.  Otherwise the index splits into the passages retrieved and
    those left out: two are retrieved, or all when the index holds fewer;
    under a metric that compares every two vectors and is transitive the
    retrieved ones come nearest first and each is at least as near to the
    question as every passage left out; and [ask_question] returns the
    text of the generation model as it is for the template filled with
    the retrieved texts, joined by a blank line in retrieval order, and
    the question as given. *)
Theorem ask_question_answer_chain (ops : list op) (question : string) :
  is_ready (run ops __init__) = true ->
  exists vs r c,
    vector_store (run ops __init__) = Some vs
    /\ retriever (run ops __init__) = Some r
    /\ chain (run ops __init__) = Some c
    /\ entries vs <> []
    /\ vectorstore r = vs
    /\ search_type r = "similarity"
    /\ search_kwargs_k r = 2%nat
    /\ context_retriever c = r
    /\ chain_prompt c = prompt __init__
    /\ match embed w question with
       | Raise e =>
           value (ask_question w question (run ops __init__))
           = Raise (AnswerFailed e)
       | Ok q =>
           exists retrieved left_out,
             Permutation (retrieved ++ left_out) (entries vs)
             /\ length retrieved = Nat.min 2 (length (entries vs))
             /\ ((forall u v, nearer w q u v = true \/ nearer w q v u = true) ->
                 (forall u v x, nearer w q u v = true ->
                                nearer w q v x = true ->
                                nearer w q u x = true) ->
                 StronglySorted
                   (fun a b => nearer w q (fst a) (fst b) = true) retrieved
                 /\ Forall (fun near =>
                              Forall (fun far =>
                                        nearer w q (fst near) (fst far) = true)
                                left_out)
                      retrieved)
             /\ value (ask_question w question (run ops __init__))
                = match complete w
                          (filled_prompt
                             (blank_line_concat
                                (map page_content (map snd retrieved)))
                             question) with
                  | Ok answer => Ok answer
                  | Raise e => Raise (AnswerFailed e)
                  end
       end.
Proof.
  intro Hr.
  destruct (consistent_run ops __init__ well_formed_init consistent_init)
    as [(_ & _ & Hc & _)|(vs & video_id & Hvs & Hret & Hc & _ & Hne & _)].
  { unfold is_ready in Hr. now rewrite Hc in Hr. }
  exists vs, (new_retriever vs), (new_chain vs __init__).
  split; [exact Hvs|]. split; [exact Hret|]. split; [exact Hc|].
  split; [exact Hne|].
  split; [reflexivity|]. split; [reflexivity|]. split; [reflexivity|].
  split; [reflexivity|]. split; [reflexivity|].
  rewrite (ask_question_chain w question _ _ Hc), chain_invoke_value.
  unfold chain_answer, nearest_two.
  destruct (embed w question) as [q|e]; cbn -[filled_prompt]; [|reflexivity].
  exists (firstn 2 (ranked w q (entries vs))),
         (skipn 2 (ranked w q (entries vs))).
  rewrite firstn_skipn.
  split; [apply ranked_perm|].
  split; [now rewrite length_firstn, ranked_length|].
  split; [|reflexivity].
  intros total transitive. apply sorted_app_split. rewrite firstn_skipn.
  apply sorted_of_positions. intros a b rest tail E Hb.
  exact (ranked_sorted w q (entries vs) total transitive a b rest tail E Hb).
Qed.

End AnswerChain.

Section AnswerChainScenario.

Import scenario cases.

Lemma ask_question_answer_chain_witness :
  is_ready (run [ProcessVideo lecture "lec12345678"] __init__) = true
  /\ exists vs r c,
       vector_store (run [ProcessVideo lecture "lec12345678"] __init__)
       = Some vs
       /\ retriever (run [ProcessVideo lecture "lec12345678"] __init__)
          = Some r
       /\ chain (run [ProcessVideo lecture "lec12345678"] __init__) = Some c
       /\ entries vs <> []
       /\ vectorstore r = vs
       /\ search_type r = "similarity"
       /\ search_kwargs_k r = 2%nat
       /\ context_retriever c = r
       /\ chain_prompt c = prompt __init__
       /\ match embed lecture "what do cats do?" with
          | Raise e =>
              value (ask_question lecture "what do cats do?"
                       (run [ProcessVideo lecture "lec12345678"] __init__))
              = Raise (AnswerFailed e)
          | Ok q =>
              exists retrieved left_out,
                Permutation (retrieved ++ left_out) (entries vs)
                /\ length retrieved = Nat.min 2 (length (entries vs))
                /\ ((forall u v, nearer lecture q u v = true
                                 \/ nearer lecture q v u = true) ->
                    (forall u v x, nearer lecture q u v = true ->
                                   nearer lecture q v x = true ->
                                   nearer lecture q u x = true) ->
                    StronglySorted
                      (fun a b => nearer lecture q (fst a) (fst b) = true)
                      retrieved
                    /\ Forall (fun near =>
                                 Forall (fun far =>
                                           nearer lecture q (fst near) (fst far)
                                           = true)
                                   left_out)
                         retrieved)
                /\ value (ask_question lecture "what do cats do?"
                            (run [ProcessVideo lecture "lec12345678"] __init__))
                   = match complete lecture
                             (filled_prompt
                                (blank_line_concat
                                   (map page_content (map snd retrieved)))
                                "what do cats do?") with
                     | Ok answer => Ok answer
                     | Raise e => Raise (AnswerFailed e)
                     end
          end.
Proof.
  split; [vm_compute; reflexivity|].
  apply (ask_question_answer_chain lecture
           [ProcessVideo lecture "lec12345678"] "what do cats do?").
  vm_compute. reflexivity.
Defined.

End AnswerChainScenario.
